(** * Verification of the tree transformation core of html_dom_visualize

    Shallow embedding of [src/html_dom_visualize/visualizer.py]:
    [_filter_branches], [_mask_elements] (with [default_mask_fn]),
    the [traverse] helper of [_plot_dom_treemap] and [_add_line_breaks],
    the steps of [html_dom_visualize] itself, and the predicates built by
    [src/html_dom_visualize/main.py].

    BeautifulSoup trees are modelled as a rose tree of [node]s.  An element
    carries its Python object identity ([id(element)]) as [oid]; text and
    comment nodes ([NavigableString], [Comment]) are opaque leaves.  A
    destructive [decompose()] on a child is modelled by returning the parent
    with that child removed from its children list. *)

From Stdlib Require Import String Ascii List Bool Arith Lia ZArith.
From Stdlib Require Import DecimalString DecimalNat.
Import ListNotations.
Open Scope list_scope.
Open Scope string_scope.

(** ** Tree model *)

Set Warnings "-register-all".

Definition attr_map := list (string * string).

Inductive node : Type :=
| Element (oid : nat) (name : string) (attrs : attr_map) (children : list node)
| Text (s : string)
| Comment (s : string).

(** Induction principle that sees through the list of children. *)
Section NodeInd.
Variable P : node -> Prop.
Hypothesis HElement : forall o nm ats cs, Forall P cs -> P (Element o nm ats cs).
Hypothesis HText : forall s, P (Text s).
Hypothesis HComment : forall s, P (Comment s).

Fixpoint node_ind' (n : node) : P n :=
  match n with
  | Element o nm ats cs =>
      HElement o nm ats cs
        ((fix go (l : list node) : Forall P l :=
            match l with
            | [] => Forall_nil P
            | c :: l' => Forall_cons c (node_ind' c) (go l')
            end) cs)
  | Text s => HText s
  | Comment s => HComment s
  end.
End NodeInd.

(** [isinstance(child, Tag)] *)
Definition is_tag (n : node) : bool :=
  match n with Element _ _ _ _ => true | _ => false end.

Definition node_oid (n : node) : nat :=
  match n with Element o _ _ _ => o | _ => 0 end.

Definition node_name (n : node) : string :=
  match n with Element _ nm _ _ => nm | _ => "" end.

Definition node_attrs (n : node) : attr_map :=
  match n with Element _ _ ats _ => ats | _ => [] end.

Definition node_children (n : node) : list node :=
  match n with Element _ _ _ cs => cs | _ => [] end.

(** All elements of a tree, in pre-order (the node itself first). *)
Fixpoint elements (n : node) : list node :=
  match n with
  | Element o nm ats cs => n :: flat_map elements cs
  | _ => []
  end.

(** Strict descendant elements of a node. *)
Definition descendants (n : node) : list node := flat_map elements (node_children n).

(** Object identities of all elements of the tree. *)
Definition oids (n : node) : list nat := map node_oid (elements n).

(** Python dict lookup [attrs.get(k)] on an attribute mapping. *)
Fixpoint attr_get (k : string) (m : attr_map) : option string :=
  match m with
  | [] => None
  | (k', v) :: m' => if String.eqb k k' then Some v else attr_get k m'
  end.

(** Python dict assignment [attrs[k] = v]: overwrite in place, or append. *)
Fixpoint attr_set (k v : string) (m : attr_map) : attr_map :=
  match m with
  | [] => [(k, v)]
  | (k', v') :: m' => if String.eqb k k' then (k', v) :: m' else (k', v') :: attr_set k v m'
  end.

(** ** Branch filter: [_filter_branches]

    [keep] is the caller's [branch_filter]; the only caller invokes
    [_filter_branches] when it is not [None], so the [if not branch_filter]
    guard is the identity and is left out.  The result pairs the returned
    boolean with the node as mutated in place.  The function is only ever
    called on tags; the last branch is never taken. *)
Fixpoint filter_branches (keep : node -> bool) (n : node) : bool * node :=
  match n with
  | Element o nm ats cs =>
      if keep n then (true, n)
      else if (Nat.eqb (List.length cs) 0) && negb (keep n) then (false, n)
      else
        let fix go (l : list node) : bool * list node :=
          match l with
          | [] => (false, [])
          | c :: l' =>
              let '(k, l'') := go l' in
              if is_tag c then
                let '(kc, c') := filter_branches keep c in
                (kc || k, if kc then c' :: l'' else l'')
              else (k, c :: l'')
          end in
        let '(sk, cs') := go cs in (sk, Element o nm ats cs')
  | _ => (true, n)
  end.

(** The loop over [list(node.children)] in [_filter_branches]. *)
Fixpoint filter_children (keep : node -> bool) (l : list node) : bool * list node :=
  match l with
  | [] => (false, [])
  | c :: l' =>
      let '(k, l'') := filter_children keep l' in
      if is_tag c then
        let '(kc, c') := filter_branches keep c in
        (kc || k, if kc then c' :: l'' else l'')
      else (k, c :: l'')
  end.


(** ** Subtree masker: [_mask_elements]

    [should_mask] and [mask_fn] are the caller's functions; the only caller
    passes [mask_fn or default_mask_fn], never [None], so the
    [mask_fn is not None] test always holds.  A matched element gets the
    [el-mask] attribute and loses its [Tag] children; its text and comment
    children stay. *)
Fixpoint mask_elements (should_mask : node -> bool) (mask_fn : node -> string)
    (n : node) : node :=
  match n with
  | Element o nm ats cs =>
      if should_mask n then
        Element o nm (attr_set "el-mask" (mask_fn n) ats)
          (filter (fun c => negb (is_tag c)) cs)
      else
        Element o nm ats
          (map (fun c => if is_tag c then mask_elements should_mask mask_fn c else c) cs)
  | _ => n
  end.

(** ** [str(node)]: BeautifulSoup's [Tag.decode] with the default
    ["minimal"] formatter and no pretty printing.  The document root
    ([BeautifulSoup] object, name ["[document]"]) is hidden and renders its
    contents only; attribute values are strings (multi-valued attributes
    such as [class] are out of the model). *)

Definition escape_char (c : ascii) : string :=
  if Ascii.eqb c "&" then "&amp;"
  else if Ascii.eqb c "<" then "&lt;"
  else if Ascii.eqb c ">" then "&gt;"
  else String c "".

Fixpoint escape_minimal (s : string) : string :=
  match s with
  | EmptyString => ""
  | String c s' => escape_char c ++ escape_minimal s'
  end.

(** The double-quote character. *)
Definition dquote : ascii := ascii_of_nat 34.
Definition dquote_s : string := String dquote "".

Fixpoint str_contains_char (c : ascii) (s : string) : bool :=
  match s with
  | EmptyString => false
  | String c' s' => Ascii.eqb c c' || str_contains_char c s'
  end.

Fixpoint replace_char (c : ascii) (by_ : string) (s : string) : string :=
  match s with
  | EmptyString => ""
  | String c' s' => (if Ascii.eqb c c' then by_ else String c' "") ++ replace_char c by_ s'
  end.

(** [EntitySubstitution.quoted_attribute_value] *)
Definition quoted_attribute_value (v : string) : string :=
  if str_contains_char dquote v then
    if str_contains_char "'"%char v then dquote_s ++ replace_char dquote "&quot;" v ++ dquote_s
    else "'" ++ v ++ "'"
  else dquote_s ++ v ++ dquote_s.

Definition void_elements : list string :=
  ["area"; "base"; "br"; "col"; "embed"; "hr"; "img"; "input"; "keygen";
   "link"; "menuitem"; "meta"; "param"; "source"; "track"; "wbr";
   "basefont"; "bgsound"; "command"; "frame"; "image"; "isindex";
   "nextid"; "spacer"].

Definition serialize_attrs (ats : attr_map) : string :=
  String.concat "" (map (fun kv => " " ++ fst kv ++ "="
                                   ++ quoted_attribute_value (escape_minimal (snd kv))) ats).

Fixpoint serialize (n : node) : string :=
  match n with
  | Element o nm ats cs =>
      let contents := String.concat "" (map serialize cs) in
      if String.eqb nm "[document]" then contents
      else if existsb (String.eqb nm) void_elements && (Nat.eqb (List.length cs) 0)
      then "<" ++ nm ++ serialize_attrs ats ++ "/>"
      else "<" ++ nm ++ serialize_attrs ats ++ ">" ++ contents ++ "</" ++ nm ++ ">"
  | Text s => escape_minimal s
  | Comment s => "<!--" ++ s ++ "-->"
  end.

(** [default_mask_fn] inside [html_dom_visualize]. *)
Definition default_mask_fn (n : node) : string :=
  if String.eqb (node_name n) "a" then
    "href: " ++ match attr_get "href" (node_attrs n) with Some v => v | None => "N/A" end
  else serialize n.

(** ** Text wrapper: [_add_line_breaks]

    Strings are Latin-1 code points; [str.split()] with no argument splits
    on runs of the characters for which [str.isspace()] holds. *)

Definition is_py_space (c : ascii) : bool :=
  let k := nat_of_ascii c in
  (Nat.leb 9 k && Nat.leb k 13) || (Nat.leb 28 k && Nat.leb k 32)
  || Nat.eqb k 133 || Nat.eqb k 160.

Fixpoint py_split_aux (cur : string) (s : string) : list string :=
  match s with
  | EmptyString => match cur with EmptyString => [] | _ => [cur] end
  | String c s' =>
      if is_py_space c then
        match cur with
        | EmptyString => py_split_aux "" s'
        | _ => cur :: py_split_aux "" s'
        end
      else py_split_aux (cur ++ String c "") s'
  end.

(** [text.split()] *)
Definition py_split (s : string) : list string := py_split_aux "" s.

(** The [for word in text.split()] loop, with its three variables
    [result], [current_line] and [current_length], followed by the final
    [if current_line:] flush.  [char_limit] is a Python [int]. *)
Fixpoint line_break_loop (char_limit : Z) (words : list string)
    (result current_line : list string) (current_length : nat) : list string :=
  match words with
  | [] =>
      match current_line with
      | [] => result
      | _ => result ++ [String.concat " " current_line]
      end
  | word :: words' =>
      if (Z.of_nat (current_length + String.length word) >? char_limit)%Z then
        line_break_loop char_limit words'
          (result ++ [String.concat " " current_line ++ "<br />"])
          [word] (String.length word)
      else
        line_break_loop char_limit words'
          result (current_line ++ [word]) (current_length + String.length word + 1)
  end.

(** The list [result] built by [_add_line_breaks] before the final join. *)
Definition add_line_breaks_lines (text : string) (char_limit : Z) : list string :=
  line_break_loop char_limit (py_split text) [] [] 0.

Definition add_line_breaks (text : string) (char_limit : Z) : string :=
  String.concat " " (add_line_breaks_lines text char_limit).

(** ** Flattener: [traverse] inside [_plot_dom_treemap] *)

(** One entry of the parallel lists [ids], [labels], [parents],
    [hover_text]. *)
Record chart_record := mk_record {
  rec_id : string;
  rec_label : string;
  rec_parent : string;
  rec_hover : string
}.

(** [f"{n}"] for a non-negative Python [int]. *)
Definition string_of_nat (n : nat) : string := NilEmpty.string_of_uint (Nat.to_uint n).

(** [f"{element.name}_{id(element)}"] *)
Definition node_id (n : node) : string := node_name n ++ "_" ++ string_of_nat (node_oid n).

(** [repr] of a Python [str]: single quotes unless the text contains a
    single quote and no double quote; backslash, the quote and the control
    characters tab, newline and carriage return are escaped. *)
Definition py_repr_str (s : string) : string :=
  let q : ascii := if str_contains_char "'"%char s && negb (str_contains_char dquote s)
                   then dquote else "'"%char in
  let fix esc (s : string) : string :=
    match s with
    | EmptyString => ""
    | String c s' =>
        (if Ascii.eqb c "\" then "\\"
         else if Ascii.eqb c q then String "\" (String c "")
         else if Ascii.eqb c (ascii_of_nat 10) then "\n"
         else if Ascii.eqb c (ascii_of_nat 13) then "\r"
         else if Ascii.eqb c (ascii_of_nat 9) then "\t"
         else String c "") ++ esc s'
    end in
  String q (esc s ++ String q "").

(** [str(element.attrs)] for a [dict] of strings. *)
Definition py_repr_attrs (ats : attr_map) : string :=
  "{" ++ String.concat ", " (map (fun kv => py_repr_str (fst kv) ++ ": " ++ py_repr_str (snd kv)) ats)
  ++ "}".

(** The text handed to [_add_line_breaks] for an element. *)
Definition hover_source (ats : attr_map) : string :=
  match attr_get "el-mask" ats with
  | Some v => v
  | None => py_repr_attrs ats
  end.

(** [if child.name:] -- true for a [Tag] with a non-empty name. *)
Definition has_name (n : node) : bool :=
  match n with
  | Element _ nm _ _ => negb (String.eqb nm "")
  | _ => false
  end.

(** [traverse(element, parent_id)]: the records it appends, in order. *)
Fixpoint traverse (n : node) (parent_id : string) : list chart_record :=
  match n with
  | Element o nm ats cs =>
      let node_id := nm ++ "_" ++ string_of_nat o in
      mk_record node_id nm parent_id (add_line_breaks (hover_source ats) 120)
        :: flat_map (fun c => if has_name c then traverse c node_id else []) cs
  | _ => []
  end.

(** [_plot_dom_treemap(node)] up to the figure: [traverse(node, "")]. *)
Definition plot_records (root : node) : list chart_record := traverse root "".

(** The element [_mask_elements] turns a match [y] into. *)
Definition masked_leaf (mask_fn : node -> string) (y : node) : node :=
  Element (node_oid y) (node_name y) (attr_set "el-mask" (mask_fn y) (node_attrs y))
    (filter (fun c => negb (is_tag c)) (node_children y)).

(** Why an element below the root of a filtered tree is still there. *)
Definition filter_reason (keep : node -> bool) (r x : node) : Prop :=
  keep x = true \/
  (exists y, In y (descendants x) /\ keep y = true) \/
  (exists a, In a (elements r) /\ In x (descendants a) /\ keep a = true).

(** Number of nodes of a tree (a measure for the proofs). *)
Fixpoint node_size (n : node) : nat :=
  match n with
  | Element _ _ _ cs => S (list_sum (map node_size cs))
  | _ => 1
  end.

(** ** Predicates built by [main.py]: [lambda node: node.name in args.branch]
    and [lambda node: node.name in args.mask]. *)
Definition name_in (tags : list string) (n : node) : bool :=
  existsb (String.eqb (node_name n)) tags.

(** ** Concrete trees *)

(** A document [<div><p></p></div>] as built by [html.parser]: the
    [BeautifulSoup] root, then the parsed elements. *)
Definition doc_div_p : node :=
  Element 0 "[document]" [] [Element 1 "div" [] [Element 2 "p" [] []]].

(** [<div><span>x</span></div>] as built by [html.parser]. *)
Definition doc_div_span : node :=
  Element 0 "[document]" [] [Element 1 "div" [] [Element 2 "span" [] [Text "x"]]].

(** Every element has a non-empty tag name: [html.parser] only builds tags
    whose name starts with a letter, and the document root is
    ["[document]"]. *)
Definition names_nonempty (t : node) : Prop :=
  forall x, In x (elements t) -> node_name x <> "".

(** [parent_id] of each record is the [id] of a record appended strictly
    earlier: [seen] holds the ids appended so far. *)
Fixpoint parents_precede (seen : list string) (rs : list chart_record) : Prop :=
  match rs with
  | [] => True
  | r :: rs' => In (rec_parent r) seen /\ parents_precede (rec_id r :: seen) rs'
  end.

(** [<html><body><div id="a"><span>x</span></div><p>y</p></body></html>]
    as built by [html.parser] (no whitespace text in the input). *)
Definition doc_c8 : node :=
  Element 0 "[document]" []
    [Element 1 "html" []
       [Element 2 "body" []
          [Element 3 "div" [("id", "a")] [Element 4 "span" [] [Text "x"]];
           Element 5 "p" [] [Text "y"]]]].

(** The markup [<div id="a"><span>x</span></div>]. *)
Definition c8_div_markup : string :=
  "<div id=" ++ dquote_s ++ "a" ++ dquote_s ++ "><span>x</span></div>".

(** Whether a string holds a character of [str.isspace()]. *)
Fixpoint has_space (s : string) : bool :=
  match s with
  | EmptyString => false
  | String c s' => is_py_space c || has_space s'
  end.

(** A word as [str.split()] returns it. *)
Definition is_word (w : string) : Prop := w <> "" /\ has_space w = false.

(** ** The processing steps of [html_dom_visualize]

    Fetching the text (from [html], [url] or [file_path]) and parsing it
    with [BeautifulSoup(html, "html.parser")] are outside the model: the
    parser is an argument.  [_filter_branches] runs when [branch_filter is
    not None], [_mask_elements] when [should_mask is not None], with
    [mask_fn or default_mask_fn]; the records of [_plot_dom_treemap] are
    returned in place of the figure. *)
Definition visualize_soup (branch_filter should_mask : option (node -> bool))
    (mask_fn : option (node -> string)) (soup : node) : list chart_record :=
  let soup1 := match branch_filter with
               | Some f => snd (filter_branches f soup)
               | None => soup
               end in
  let soup2 := match should_mask with
               | Some sm =>
                   mask_elements sm
                     (match mask_fn with Some m => m | None => default_mask_fn end) soup1
               | None => soup1
               end in
  plot_records soup2.

(** [html_dom_visualize] once the text is known: an empty text prints
    ["Error: No HTML provided"] and returns without a figure. *)
Definition html_dom_visualize (parse : string -> node) (html : string)
    (branch_filter should_mask : option (node -> bool))
    (mask_fn : option (node -> string)) : option (list chart_record) :=
  if String.eqb html "" then None
  else Some (visualize_soup branch_filter should_mask mask_fn (parse html)).

(** [(lambda node: node.name in args.branch) if args.branch else None] in
    [main.py], and the same for [args.mask]: an [append] option is [None]
    when not given. *)
Definition cli_predicate (tags : option (list string)) : option (node -> bool) :=
  match tags with
  | Some ((_ :: _) as l) => Some (name_in l)
  | _ => None
  end.

(** [l1] is obtained from [l2] by deleting entries. *)
Inductive subseq {A : Type} : list A -> list A -> Prop :=
| subseq_nil : subseq [] []
| subseq_keep a l1 l2 : subseq l1 l2 -> subseq (a :: l1) (a :: l2)
| subseq_drop a l1 l2 : subseq l1 l2 -> subseq l1 (a :: l2).

(** * Proofs *)

(** ** Basic facts about the tree model and the branch filter *)

Lemma filter_branches_Element keep o nm ats cs :
  filter_branches keep (Element o nm ats cs) =
  if keep (Element o nm ats cs) then (true, Element o nm ats cs)
  else if (Nat.eqb (List.length cs) 0) && negb (keep (Element o nm ats cs))
  then (false, Element o nm ats cs)
  else let '(sk, cs') := filter_children keep cs in (sk, Element o nm ats cs').
Proof.
  simpl. destruct (keep _); [reflexivity|].
  destruct (_ && _); [reflexivity|].
  assert (E : forall l, (fix go (l : list node) : bool * list node :=
          match l with
          | [] => (false, [])
          | c :: l' =>
              let '(k, l'') := go l' in
              if is_tag c then
                let '(kc, c') := filter_branches keep c in
                (kc || k, if kc then c' :: l'' else l'')
              else (k, c :: l'')
          end) l = filter_children keep l).
  { induction l as [|c l IH]; simpl; [reflexivity|]. rewrite IH. reflexivity. }
  rewrite E. reflexivity.
Qed.

Lemma elements_Element o nm ats cs :
  elements (Element o nm ats cs) = Element o nm ats cs :: flat_map elements cs.
Proof. reflexivity. Qed.

Lemma descendants_Element o nm ats cs :
  descendants (Element o nm ats cs) = flat_map elements cs.
Proof. reflexivity. Qed.

Lemma elements_not_tag n : is_tag n = false -> elements n = [].
Proof. destruct n; simpl; congruence. Qed.

Lemma filter_branches_tag keep n b n' :
  filter_branches keep n = (b, n') -> is_tag n' = is_tag n.
Proof.
  destruct n as [o nm ats cs| |]; intros H.
  - rewrite filter_branches_Element in H.
    destruct (keep _); [inversion H; reflexivity|].
    destruct (_ && _); [inversion H; reflexivity|].
    destruct (filter_children keep cs); inversion H; reflexivity.
  - inversion H; reflexivity.
  - inversion H; reflexivity.
Qed.

(** Every tag left by the children loop is a child that reported "kept",
    as it was mutated by its own recursive call. *)
Lemma filter_children_origin keep cs k cs' :
  filter_children keep cs = (k, cs') ->
  (forall c', In c' cs' -> is_tag c' = true ->
     exists c, In c cs /\ is_tag c = true /\ filter_branches keep c = (true, c')) /\
  (forall c', In c' cs' -> is_tag c' = false -> In c' cs) /\
  k = existsb is_tag cs'.
Proof.
  revert k cs'; induction cs as [|c l IH]; intros k cs' H; simpl in H.
  - inversion H; subst; simpl; split; [|split]; [intros; contradiction..|reflexivity].
  - destruct (filter_children keep l) as [k0 l''] eqn:El.
    destruct (IH _ _ eq_refl) as [IH1 [IH2 IH3]].
    destruct (is_tag c) eqn:Tc.
    + destruct (filter_branches keep c) as [kc c'] eqn:Ec.
      pose proof (filter_branches_tag _ _ _ _ Ec) as Tc'. rewrite Tc in Tc'.
      inversion H; subst; clear H.
      destruct kc; simpl.
      * split; [|split].
        -- intros x [<-|Hx] Tx; [exists c; auto|].
           destruct (IH1 x Hx Tx) as [c0 [? ?]]; exists c0; auto.
        -- intros x [<-|Hx] Tx; [congruence|]. right; auto.
        -- rewrite Tc'. reflexivity.
      * split; [|split].
        -- intros x Hx Tx. destruct (IH1 x Hx Tx) as [c0 [? ?]]; exists c0; auto.
        -- intros x Hx Tx. right; auto.
        -- reflexivity.
    + inversion H; subst; clear H. simpl. split; [|split].
      * intros x [<-|Hx] Tx; [congruence|].
        destruct (IH1 x Hx Tx) as [c0 [? ?]]; exists c0; auto.
      * intros x [<-|Hx] Tx; [left; reflexivity|]. right; auto.
      * simpl. rewrite Tc. reflexivity.
Qed.

(** Re-running the children loop on its own output reproduces it, given
    that every child that reported "kept" is a fixed point. *)
Lemma filter_children_rerun keep cs k cs' :
  Forall (fun c => forall c', filter_branches keep c = (true, c') ->
                              filter_branches keep c' = (true, c')) cs ->
  filter_children keep cs = (k, cs') -> filter_children keep cs' = (k, cs').
Proof.
  revert k cs'; induction cs as [|c l IH]; intros k cs' HF H; simpl in H.
  - inversion H; reflexivity.
  - inversion HF as [|? ? Hc HF']; subst.
    destruct (filter_children keep l) as [k0 l''] eqn:El.
    specialize (IH _ _ HF' eq_refl).
    destruct (is_tag c) eqn:Tc.
    + destruct (filter_branches keep c) as [kc c'] eqn:Ec.
      pose proof (filter_branches_tag _ _ _ _ Ec) as Tc'. rewrite Tc in Tc'.
      inversion H; subst; clear H. destruct kc; simpl.
      * rewrite IH, Tc', (Hc c' eq_refl). reflexivity.
      * exact IH.
    + inversion H; subst; clear H. simpl. rewrite IH, Tc. reflexivity.
Qed.

Lemma filter_branches_rerun keep t b t' :
  filter_branches keep t = (b, t') ->
  snd (filter_branches keep t') = t' /\
  (b = true -> filter_branches keep t' = (true, t')).
Proof.
  revert b t'; induction t as [o nm ats cs IHcs| s | s] using node_ind';
    intros b t' H.
  - rewrite filter_branches_Element in H.
    destruct (keep (Element o nm ats cs)) eqn:K.
    { inversion H; subst. rewrite filter_branches_Element, K. auto. }
    destruct (Nat.eqb (List.length cs) 0 && negb false) eqn:L.
    { inversion H; subst. rewrite filter_branches_Element, K, L.
      split; [reflexivity|discriminate]. }
    destruct (filter_children keep cs) as [sk cs'] eqn:Ecs.
    inversion H; subst; clear H.
    assert (HF : Forall (fun c => forall c', filter_branches keep c = (true, c') ->
                          filter_branches keep c' = (true, c')) cs).
    { eapply Forall_impl; [|exact IHcs]. intros c Hc c' Ec.
      exact (proj2 (Hc _ _ Ec) eq_refl). }
    pose proof (filter_children_rerun _ _ _ _ HF Ecs) as R.
    destruct (filter_children_origin _ _ _ _ Ecs) as [_ [_ Hk]].
    rewrite filter_branches_Element.
    destruct (keep (Element o nm ats cs')); [split; auto|].
    destruct (Nat.eqb (List.length cs') 0 && negb false) eqn:L'.
    + split; [reflexivity|]. intros ->.
      destruct cs'; [discriminate|discriminate].
    + rewrite R. split; [reflexivity | intros ->; reflexivity].
  - inversion H; subst. simpl. auto.
  - inversion H; subst. simpl. auto.
Qed.

Lemma elements_tag n : is_tag n = true -> elements n = n :: descendants n.
Proof. destruct n; simpl; intros H; [reflexivity|discriminate|discriminate]. Qed.

Lemma in_descendants_elements r x :
  In x (descendants r) -> In x (elements r).
Proof.
  destruct r as [o nm ats cs| |]; simpl; [right; exact H|contradiction|contradiction].
Qed.

Lemma in_child_elements o nm ats cs c x :
  In c cs -> In x (elements c) -> In x (descendants (Element o nm ats cs)).
Proof. intros Hc Hx. simpl. apply in_flat_map. exists c; auto. Qed.

Lemma filter_branches_survivors_gen keep t :
  forall b t', filter_branches keep t = (b, t') ->
  (b = true -> is_tag t = true ->
     keep t' = true \/ exists y, In y (descendants t') /\ keep y = true) /\
  (forall x, In x (descendants t') -> filter_reason keep t' x).
Proof.
  induction t as [o nm ats cs IHcs| s | s] using node_ind'; intros b t' H.
  - rewrite filter_branches_Element in H.
    destruct (keep (Element o nm ats cs)) eqn:K.
    { inversion H; subst. split; [auto|].
      intros x Hx. right; right. exists (Element o nm ats cs).
      split; [left; reflexivity|auto]. }
    destruct (Nat.eqb (List.length cs) 0 && negb false) eqn:L.
    { inversion H; subst. split; [discriminate|].
      destruct cs; [contradiction|discriminate]. }
    destruct (filter_children keep cs) as [sk cs'] eqn:Ecs.
    inversion H; subst; clear H.
    destruct (filter_children_origin _ _ _ _ Ecs) as [O1 [_ Hk]].
    assert (Child : forall c', In c' cs' -> is_tag c' = true ->
      (keep c' = true \/ exists y, In y (descendants c') /\ keep y = true) /\
      (forall x, In x (descendants c') -> filter_reason keep c' x)).
    { intros c' Hc' Tc'. destruct (O1 c' Hc' Tc') as [c [Hc [Tc Ec]]].
      rewrite Forall_forall in IHcs.
      destruct (IHcs c Hc _ _ Ec) as [I1 I2]. split; auto. }
    split.
    + intros -> _. right.
      symmetry in Hk. apply existsb_exists in Hk as [c' [Hc' Tc']].
      destruct (Child c' Hc' Tc') as [[Kc | [y [Hy Ky]]] _].
      * exists c'. split; [|exact Kc].
        apply (in_child_elements _ _ _ _ c'); [exact Hc'|].
        rewrite elements_tag by exact Tc'. left; reflexivity.
      * exists y. split; [|exact Ky].
        apply (in_child_elements _ _ _ _ c'); [exact Hc'|].
        rewrite elements_tag by exact Tc'. right; exact Hy.
    + intros x Hx. simpl in Hx. apply in_flat_map in Hx as [c' [Hc' Hx]].
      destruct (is_tag c') eqn:Tc'.
      2:{ rewrite elements_not_tag in Hx by exact Tc'. contradiction. }
      destruct (Child c' Hc' Tc') as [C1 C2].
      rewrite elements_tag in Hx by exact Tc'. destruct Hx as [<- | Hx].
      * destruct C1 as [K1 | K1]; [left; exact K1 | right; left; exact K1].
      * destruct (C2 x Hx) as [R | [R | [a [Ha [Hxa Ka]]]]];
          [left; exact R | right; left; exact R|].
        right; right. exists a. split; [|auto].
        right. apply (in_child_elements o nm ats cs' c'); auto.
  - inversion H; subst. split; [discriminate|intros x []].
  - inversion H; subst. split; [discriminate|intros x []].
Qed.

(** ** Generic facts on trees, identities and lists *)

Lemma elements_is_tag t x : In x (elements t) -> is_tag x = true.
Proof.
  induction t as [o nm ats cs IHcs| s | s] using node_ind'; simpl; [|contradiction..].
  intros [<-|Hx]; [reflexivity|].
  apply in_flat_map in Hx as [c [Hc Hx]]. rewrite Forall_forall in IHcs. eauto.
Qed.

Lemma node_size_le_sum c cs : In c cs -> node_size c <= list_sum (map node_size cs).
Proof.
  induction cs as [|c' cs IH]; simpl; [contradiction|].
  intros [<-|Hc]; [lia|]. specialize (IH Hc). lia.
Qed.

Lemma elements_size t x : In x (elements t) -> node_size x <= node_size t.
Proof.
  induction t as [o nm ats cs IHcs| s | s] using node_ind'; simpl; [|contradiction..].
  intros [<-|Hx]; [simpl; lia|].
  apply in_flat_map in Hx as [c [Hc Hx]]. rewrite Forall_forall in IHcs.
  specialize (IHcs c Hc Hx). pose proof (node_size_le_sum c cs Hc). lia.
Qed.

Lemma descendants_size t x : In x (descendants t) -> node_size x < node_size t.
Proof.
  destruct t as [o nm ats cs| |]; simpl; [|contradiction..].
  intros Hx. apply in_flat_map in Hx as [c [Hc Hx]].
  pose proof (elements_size c x Hx). pose proof (node_size_le_sum c cs Hc). lia.
Qed.

Lemma descendants_trans t e d :
  In e (elements t) -> In d (descendants e) -> In d (descendants t).
Proof.
  induction t as [o nm ats cs IHcs| s | s] using node_ind'; simpl; [|contradiction..].
  intros [<-|He] Hd; [exact Hd|].
  apply in_flat_map in He as [c [Hc He]]. rewrite Forall_forall in IHcs.
  apply in_flat_map. exists c. split; [exact Hc|].
  apply in_descendants_elements. eauto.
Qed.

Lemma oids_Element o nm ats cs :
  oids (Element o nm ats cs) = o :: flat_map oids cs.
Proof.
  unfold oids. simpl. f_equal.
  induction cs as [|c cs IH]; simpl; [reflexivity|]. rewrite map_app, IH. reflexivity.
Qed.

Lemma in_oids t x : In x (elements t) -> In (node_oid x) (oids t).
Proof. intros H. unfold oids. apply in_map. exact H. Qed.

Lemma NoDup_flat_map_elt {A B} (g : A -> list B) l a :
  NoDup (flat_map g l) -> In a l -> NoDup (g a).
Proof.
  induction l as [|a' l IH]; simpl; [contradiction|].
  intros H [<-|Ha].
  - eapply NoDup_app_remove_r. exact H.
  - apply IH; [|exact Ha]. eapply NoDup_app_remove_l. exact H.
Qed.

Lemma NoDup_app_disj {A} (l1 l2 : list A) w :
  NoDup (l1 ++ l2) -> In w l1 -> ~ In w l2.
Proof.
  induction l1 as [|a l1 IH]; simpl; [contradiction|].
  intros H [<-|Hw] Hw2; inversion H as [|? ? Hn Hd]; subst.
  - apply Hn. apply in_or_app. right. exact Hw2.
  - exact (IH Hd Hw Hw2).
Qed.

Lemma NoDup_flat_map_disjoint {A B} (g : A -> list B) l a b z :
  NoDup (flat_map g l) -> In a l -> In b l -> In z (g a) -> In z (g b) -> a = b.
Proof.
  induction l as [|c l IH]; simpl; [contradiction|].
  intros H Ha Hb Za Zb.
  assert (Disj : forall w, In w (g c) -> ~ In w (flat_map g l)).
  { intros w Hw1 Hw2. eapply NoDup_app_disj; eauto. }
  destruct Ha as [<-|Ha]; destruct Hb as [<-|Hb]; [reflexivity| | |].
  - exfalso. apply (Disj z Za). apply in_flat_map. eauto.
  - exfalso. apply (Disj z Zb). apply in_flat_map. eauto.
  - apply IH; auto. eapply NoDup_app_remove_l. exact H.
Qed.

(** Two children of a node whose identities are all distinct share no
    element: the one that holds [x] is unique. *)
Lemma child_unique o nm ats cs c c' x :
  NoDup (oids (Element o nm ats cs)) -> In c cs -> In c' cs ->
  In x (elements c) -> In x (elements c') -> c = c'.
Proof.
  intros H Hc Hc' Hx Hx'. rewrite oids_Element in H. inversion H as [|? ? _ H']; subst.
  eapply (NoDup_flat_map_disjoint oids cs c c' (node_oid x)); eauto using in_oids.
Qed.

Lemma child_NoDup o nm ats cs c :
  NoDup (oids (Element o nm ats cs)) -> In c cs -> NoDup (oids c).
Proof.
  intros H Hc. rewrite oids_Element in H. inversion H as [|? ? _ H']; subst.
  eapply NoDup_flat_map_elt; eauto.
Qed.

(** ** Facts about the masker *)

Section Masker.
Variable should_mask : node -> bool.
Variable mask_fn : node -> string.

Local Abbreviation mask := (mask_elements should_mask mask_fn).
Local Abbreviation masked_leaf := (masked_leaf mask_fn).

Lemma flat_map_elements_no_tag l :
  flat_map elements (filter (fun c => negb (is_tag c)) l) = [].
Proof.
  induction l as [|c l IH]; simpl; [reflexivity|].
  destruct (is_tag c) eqn:T; simpl; [exact IH|].
  rewrite elements_not_tag by exact T. exact IH.
Qed.

Lemma mask_Element_true o nm ats cs :
  should_mask (Element o nm ats cs) = true ->
  mask (Element o nm ats cs) = masked_leaf (Element o nm ats cs).
Proof. intros H. unfold mask. simpl. rewrite H. reflexivity. Qed.

Lemma mask_Element_false o nm ats cs :
  should_mask (Element o nm ats cs) = false ->
  mask (Element o nm ats cs) =
    Element o nm ats (map (fun c => if is_tag c then mask c else c) cs).
Proof. intros H. unfold mask. simpl. rewrite H. reflexivity. Qed.

Lemma elements_masked_leaf y : elements (masked_leaf y) = [masked_leaf y].
Proof. unfold masked_leaf. simpl. rewrite flat_map_elements_no_tag. reflexivity. Qed.

Lemma elements_mask_child c :
  elements (if is_tag c then mask c else c) = elements (mask c).
Proof. destruct c; reflexivity. Qed.

(** Every element of the masked tree comes from an element of the input,
    with the same identity: a match turned into [masked_leaf], or an
    element that did not match, with its attributes unchanged. *)
Lemma mask_elements_origin t x :
  In x (elements (mask t)) ->
  exists y, In y (elements t) /\
    ((should_mask y = true /\ x = masked_leaf y) \/
     (should_mask y = false /\ node_oid x = node_oid y /\ node_attrs x = node_attrs y)).
Proof.
  induction t as [o nm ats cs IHcs| s | s] using node_ind'; intros Hx.
  - destruct (should_mask (Element o nm ats cs)) eqn:M.
    + rewrite mask_Element_true, elements_masked_leaf in Hx by exact M.
      destruct Hx as [<-|[]]. exists (Element o nm ats cs).
      split; [left; reflexivity|left; auto].
    + rewrite mask_Element_false in Hx by exact M.
      destruct Hx as [<-|Hx].
      * exists (Element o nm ats cs). split; [left; reflexivity|right; auto].
      * apply in_flat_map in Hx as [c' [Hc' Hx]].
        apply in_map_iff in Hc' as [c [<- Hc]].
        rewrite elements_mask_child in Hx.
        rewrite Forall_forall in IHcs.
        destruct (IHcs c Hc Hx) as [y [Hy R]]. exists y. split; [|exact R].
        right. apply in_flat_map. exists c. auto.
  - contradiction.
  - contradiction.
Qed.

Lemma mask_oids_incl t : incl (oids (mask t)) (oids t).
Proof.
  intros z Hz. unfold oids in *. apply in_map_iff in Hz as [x [<- Hx]].
  destruct (mask_elements_origin t x Hx) as [y [Hy [[_ ->]|[_ [E _]]]]];
    apply in_map_iff; exists y; split; auto.
Qed.
Lemma mask_Element_tag o nm ats cs : is_tag (mask (Element o nm ats cs)) = true.
Proof. simpl. destruct (should_mask _); reflexivity. Qed.

Lemma oids_mask_child c : oids (if is_tag c then mask c else c) = oids (mask c).
Proof. unfold oids. rewrite elements_mask_child. reflexivity. Qed.

(** Nothing below a matched element is left: masking does not recurse
    into a masked subtree. *)
Lemma mask_removes_below t :
  NoDup (oids t) -> forall a x, In a (elements t) -> should_mask a = true ->
  In x (descendants a) -> ~ In (node_oid x) (oids (mask t)).
Proof.
  induction t as [o nm ats cs IHcs| s | s] using node_ind';
    intros ND a x Ha Ma Hx; [|contradiction..].
  pose proof ND as ND'. rewrite oids_Element in ND'.
  inversion ND' as [|? ? Hn NDc]; subst.
  pose proof (descendants_trans _ _ _ Ha Hx) as Hxt.
  simpl in Hxt. apply in_flat_map in Hxt as [c [Hc Hxc]].
  assert (Ox : node_oid x <> o).
  { intros E. apply Hn. rewrite <- E. apply in_flat_map. exists c.
    split; [exact Hc|]. apply in_oids. exact Hxc. }
  destruct (should_mask (Element o nm ats cs)) eqn:M.
  - rewrite mask_Element_true by exact M. unfold oids.
    rewrite elements_masked_leaf. simpl. intros [E|[]]. apply Ox. symmetry. exact E.
  - rewrite mask_Element_false by exact M. rewrite oids_Element.
    intros [E|Hin]; [apply Ox; symmetry; exact E|].
    destruct Ha as [<-|Ha]; [simpl in Ma; congruence|].
    apply in_flat_map in Ha as [ca [Hca Ha]].
    rewrite flat_map_concat_map, map_map, <- flat_map_concat_map in Hin.
    apply in_flat_map in Hin as [c'' [Hc'' Hin]].
    rewrite oids_mask_child in Hin.
    assert (Hxa : In x (elements ca)).
    { apply in_descendants_elements. eapply descendants_trans; eauto. }
    assert (Eq : c'' = ca).
    { eapply (NoDup_flat_map_disjoint oids cs c'' ca (node_oid x)); eauto.
      - apply (mask_oids_incl c''). exact Hin.
      - apply in_oids. exact Hxa. }
    subst c''. rewrite Forall_forall in IHcs.
    apply (IHcs ca Hca (child_NoDup o nm ats cs ca ND Hca) a x Ha Ma Hx). exact Hin.
Qed.

(** Every match has a topmost match above it (or is one), with no match
    among its ancestors. *)
Lemma mask_topmost_exists t :
  NoDup (oids t) -> forall e, In e (elements t) -> should_mask e = true ->
  exists a, In a (elements t) /\ (a = e \/ In e (descendants a)) /\
    should_mask a = true /\
    (forall b, In b (elements t) -> In a (descendants b) -> should_mask b = false).
Proof.
  induction t as [o nm ats cs IHcs| s | s] using node_ind';
    intros ND e He Me; [|contradiction..].
  destruct (should_mask (Element o nm ats cs)) eqn:M.
  - exists (Element o nm ats cs). split; [left; reflexivity|].
    split; [|split; [exact M|]].
    + destruct He as [<-|He]; [left; reflexivity|right; exact He].
    + intros b Hb Ht. exfalso.
      pose proof (elements_size _ _ Hb). pose proof (descendants_size _ _ Ht). lia.
  - destruct He as [<-|He]; [congruence|].
    apply in_flat_map in He as [c [Hc He]].
    rewrite Forall_forall in IHcs.
    destruct (IHcs c Hc (child_NoDup o nm ats cs c ND Hc) e He Me)
      as [a [Ha [Hae [Ma Top]]]].
    exists a. split; [right; apply in_flat_map; eauto|].
    split; [exact Hae|]. split; [exact Ma|].
    intros b [<-|Hb] Hab; [exact M|].
    apply in_flat_map in Hb as [c' [Hc' Hb]].
    assert (Hac' : In a (elements c')).
    { apply in_descendants_elements. eapply descendants_trans; eauto. }
    assert (c' = c) as -> by (eapply child_unique; eauto).
    exact (Top b Hb Hab).
Qed.

(** An element with no matching ancestor is still in the masked tree, as
    the masker left it. *)
Lemma mask_keeps_unmasked_path t y :
  In y (elements t) ->
  (forall b, In b (elements t) -> In y (descendants b) -> should_mask b = false) ->
  In (mask y) (elements (mask t)).
Proof.
  induction t as [o nm ats cs IHcs| s | s] using node_ind';
    intros Hy Anc; [|contradiction..].
  destruct Hy as [<-|Hy].
  - rewrite (elements_tag (mask _)) by apply mask_Element_tag. left; reflexivity.
  - apply in_flat_map in Hy as [c [Hc Hy]].
    assert (M : should_mask (Element o nm ats cs) = false).
    { apply Anc; [left; reflexivity|]. apply in_flat_map. eauto. }
    rewrite mask_Element_false by exact M. right.
    apply in_flat_map. exists (if is_tag c then mask c else c).
    split; [apply (in_map (fun c => if is_tag c then mask c else c)); exact Hc|].
    rewrite elements_mask_child.
    rewrite Forall_forall in IHcs. apply (IHcs c Hc Hy).
    intros b Hb Hyb. apply Anc; [right; apply in_flat_map; eauto|exact Hyb].
Qed.

End Masker.

Lemma attr_get_set k v m : attr_get k (attr_set k v m) = Some v.
Proof.
  induction m as [|[k' v'] m IH]; simpl.
  - rewrite String.eqb_refl. reflexivity.
  - destruct (String.eqb k k') eqn:E; simpl; rewrite ?E; [reflexivity|exact IH].
Qed.

Lemma filter_tag_no_tag l :
  filter is_tag (filter (fun c => negb (is_tag c)) l) = [].
Proof.
  induction l as [|c l IH]; simpl; [reflexivity|].
  destruct (is_tag c) eqn:T; simpl; rewrite ?T; exact IH.
Qed.

Lemma mask_matched sm mf a :
  is_tag a = true -> sm a = true -> mask_elements sm mf a = masked_leaf mf a.
Proof.
  destruct a as [o nm ats cs| |]; intros T M; try discriminate.
  simpl. rewrite M. reflexivity.
Qed.

Lemma mask_unmatched_attrs sm mf b :
  sm b = false -> node_attrs (mask_elements sm mf b) = node_attrs b.
Proof. destruct b; simpl; intros M; rewrite ?M; reflexivity. Qed.

(** ** Facts about the flattener *)

Lemma string_of_nat_inj a b : string_of_nat a = string_of_nat b -> a = b.
Proof.
  unfold string_of_nat. intros E.
  assert (E' : NilEmpty.uint_of_string (NilEmpty.string_of_uint (Nat.to_uint a)) =
               NilEmpty.uint_of_string (NilEmpty.string_of_uint (Nat.to_uint b)))
    by (rewrite E; reflexivity).
  rewrite !NilEmpty.usu in E'. injection E' as E'.
  rewrite <- (Unsigned.of_to a), <- (Unsigned.of_to b), E'. reflexivity.
Qed.

Lemma string_of_uint_no_underscore d :
  str_contains_char "_" (NilEmpty.string_of_uint d) = false.
Proof. induction d; simpl; rewrite ?IHd; reflexivity. Qed.

Lemma contains_app_char ch c d : str_contains_char ch (c ++ String ch d) = true.
Proof.
  induction c as [|x c IH]; simpl.
  - rewrite Ascii.eqb_refl. reflexivity.
  - rewrite IH, orb_true_r. reflexivity.
Qed.

(** The text after the last ["_"] of an id is its decimal object id. *)
Lemma underscore_suffix a b c d :
  str_contains_char "_" b = false -> str_contains_char "_" d = false ->
  a ++ String "_" b = c ++ String "_" d -> b = d.
Proof.
  revert c; induction a as [|x a IH]; intros c Hb Hd E; destruct c as [|y c]; simpl in E.
  - injection E as E. exact E.
  - injection E as E1 E2. subst y. rewrite E2, contains_app_char in Hb. discriminate.
  - injection E as E1 E2. subst x. rewrite <- E2, contains_app_char in Hd. discriminate.
  - injection E as E1 E2. exact (IH c Hb Hd E2).
Qed.

Lemma node_id_oid x y : node_id x = node_id y -> node_oid x = node_oid y.
Proof.
  unfold node_id. intros E. apply string_of_nat_inj.
  eapply underscore_suffix; [apply string_of_uint_no_underscore..|exact E].
Qed.

Lemma NoDup_map_weaken {A B C} (f : A -> B) (g : A -> C) l :
  (forall x y, f x = f y -> g x = g y) -> NoDup (map g l) -> NoDup (map f l).
Proof.
  intros Hfg. induction l as [|a l IH]; simpl; intros H; [constructor|].
  inversion H as [|? ? Hn Hd]; subst. constructor; [|exact (IH Hd)].
  intros Hin. apply in_map_iff in Hin as [y [Ey Hy]]. apply Hn.
  rewrite (Hfg a y (eq_sym Ey)). apply in_map. exact Hy.
Qed.

Lemma map_flat_map' {A B C} (f : B -> C) (g : A -> list B) l :
  map f (flat_map g l) = flat_map (fun x => map f (g x)) l.
Proof. induction l as [|a l IH]; simpl; [reflexivity|]. rewrite map_app, IH. reflexivity. Qed.

Lemma flat_map_ext_in' {A B} (f g : A -> list B) l :
  (forall x, In x l -> f x = g x) -> flat_map f l = flat_map g l.
Proof.
  induction l as [|a l IH]; simpl; intros H; [reflexivity|].
  rewrite (H a (or_introl eq_refl)), IH; [reflexivity|]. intros x Hx. apply H. right. exact Hx.
Qed.

Lemma names_nonempty_child o nm ats cs c :
  names_nonempty (Element o nm ats cs) -> In c cs -> names_nonempty c.
Proof. intros H Hc x Hx. apply H. right. apply in_flat_map. eauto. Qed.

Lemma has_name_tag o nm ats cs c :
  names_nonempty (Element o nm ats cs) -> In c cs -> has_name c = is_tag c.
Proof.
  intros H Hc. destruct c as [o' nm' ats' cs'| |]; try reflexivity. simpl.
  destruct (String.eqb nm' "") eqn:E; [|reflexivity].
  apply String.eqb_eq in E. exfalso. apply (H (Element o' nm' ats' cs')); [|exact E].
  right. apply in_flat_map. exists (Element o' nm' ats' cs'). split; [exact Hc|left; reflexivity].
Qed.

Lemma traverse_not_tag c pid : is_tag c = false -> traverse c pid = [].
Proof. destruct c; simpl; congruence. Qed.

(** [traverse] emits one record per element, in pre-order. *)
Lemma traverse_ids t pid :
  names_nonempty t -> map rec_id (traverse t pid) = map node_id (elements t).
Proof.
  revert pid; induction t as [o nm ats cs IHcs| s | s] using node_ind';
    intros pid Hn; [|reflexivity..].
  simpl. f_equal. rewrite !map_flat_map'. apply flat_map_ext_in'.
  intros c Hc. rewrite (has_name_tag o nm ats cs c Hn Hc).
  rewrite Forall_forall in IHcs.
  destruct (is_tag c) eqn:T.
  - apply IHcs; [exact Hc|]. exact (names_nonempty_child o nm ats cs c Hn Hc).
  - rewrite elements_not_tag by exact T. reflexivity.
Qed.

(** Each element has a record with its id, its tag name and its hover
    text. *)
Lemma traverse_record t pid x :
  names_nonempty t -> In x (elements t) ->
  exists pid', In (mk_record (node_id x) (node_name x) pid'
                     (add_line_breaks (hover_source (node_attrs x)) 120)) (traverse t pid).
Proof.
  revert pid; induction t as [o nm ats cs IHcs| s | s] using node_ind';
    intros pid Hn Hx; [|contradiction..].
  destruct Hx as [<-|Hx].
  - exists pid. left. reflexivity.
  - apply in_flat_map in Hx as [c [Hc Hx]].
    rewrite Forall_forall in IHcs.
    pose proof (elements_is_tag c x Hx) as _.
    assert (T : is_tag c = true).
    { destruct c; [reflexivity|contradiction..]. }
    destruct (IHcs c Hc (nm ++ "_" ++ string_of_nat o)
                (names_nonempty_child o nm ats cs c Hn Hc) Hx) as [pid' H].
    exists pid'. right. apply in_flat_map. exists c. split; [exact Hc|].
    rewrite (has_name_tag o nm ats cs c Hn Hc), T. exact H.
Qed.

Lemma parents_precede_app seen l1 l2 :
  parents_precede seen l1 -> parents_precede (rev (map rec_id l1) ++ seen) l2 ->
  parents_precede seen (l1 ++ l2).
Proof.
  revert seen; induction l1 as [|r l1 IH]; intros seen H1 H2; simpl in *; [exact H2|].
  destruct H1 as [Hr H1]. split; [exact Hr|]. apply IH; [exact H1|].
  rewrite <- app_assoc in H2. exact H2.
Qed.

Lemma parents_precede_mono seen seen' l :
  incl seen seen' -> parents_precede seen l -> parents_precede seen' l.
Proof.
  revert seen seen'; induction l as [|r l IH]; intros seen seen' Inc H; simpl in *; [exact I|].
  destruct H as [Hr H]. split; [apply Inc; exact Hr|].
  apply (IH (rec_id r :: seen)); [|exact H].
  intros z [<-|Hz]; [left; reflexivity|right; apply Inc; exact Hz].
Qed.

(** The parent id passed in is already seen: then every record's parent
    was emitted before it. *)
Lemma traverse_parents_precede t pid seen :
  In pid seen -> parents_precede seen (traverse t pid).
Proof.
  revert pid seen; induction t as [o nm ats cs IHcs| s | s] using node_ind';
    intros pid seen Hp; simpl; [|exact I..].
  split; [exact Hp|].
  set (nid := nm ++ "_" ++ string_of_nat o).
  assert (Gen : forall seen', In nid seen' ->
    parents_precede seen' (flat_map (fun c => if has_name c then traverse c nid else []) cs)).
  { clear Hp. induction cs as [|c cs IH]; intros seen' Hs; simpl; [exact I|].
    inversion IHcs as [|? ? Hc Hcs]; subst.
    apply parents_precede_app.
    - destruct (has_name c); [apply Hc; exact Hs|exact I].
    - apply IH; [exact Hcs|]. apply in_or_app. right. exact Hs. }
  apply Gen. left. reflexivity.
Qed.

Lemma parents_precede_in seen rs r :
  parents_precede seen rs -> In r rs -> In (rec_parent r) (seen ++ map rec_id rs).
Proof.
  revert seen; induction rs as [|r' rs IH]; intros seen H Hr; [contradiction|].
  destruct H as [Hp H]. destruct Hr as [<-|Hr].
  - apply in_or_app. left. exact Hp.
  - specialize (IH _ H Hr). apply in_app_or in IH as [[<-|I]|I];
      apply in_or_app; [right; left; reflexivity|left; exact I|right; right; exact I].
Qed.

Lemma node_id_nonempty x : node_id x <> "".
Proof. unfold node_id. destruct (node_name x); discriminate. Qed.

Lemma traverse_children_parents nid cs seen :
  In nid seen ->
  parents_precede seen (flat_map (fun c => if has_name c then traverse c nid else []) cs).
Proof.
  revert seen; induction cs as [|c cs IH]; intros seen Hs; simpl; [exact I|].
  apply parents_precede_app.
  - destruct (has_name c); [apply traverse_parents_precede; exact Hs|exact I].
  - apply IH. apply in_or_app. right. exact Hs.
Qed.

(** ** Facts about the text wrapper *)

Lemma str_app_assoc (a b c : string) : (a ++ b) ++ c = a ++ (b ++ c).
Proof. induction a as [|x a IH]; simpl; [reflexivity|]. rewrite IH. reflexivity. Qed.

Lemma str_app_nil_r (a : string) : a ++ "" = a.
Proof. induction a as [|x a IH]; simpl; [reflexivity|]. rewrite IH. reflexivity. Qed.

Lemma has_space_app a b : has_space (a ++ b) = has_space a || has_space b.
Proof. induction a as [|x a IH]; simpl; [reflexivity|]. rewrite IH, orb_assoc. reflexivity. Qed.

Lemma py_split_aux_word w cur rest :
  has_space w = false -> py_split_aux cur (w ++ rest) = py_split_aux (cur ++ w) rest.
Proof.
  revert cur; induction w as [|c w IH]; intros cur Hw; simpl.
  - rewrite str_app_nil_r. reflexivity.
  - simpl in Hw. apply orb_false_iff in Hw as [Hc Hw]. rewrite Hc, IH by exact Hw.
    rewrite str_app_assoc. reflexivity.
Qed.

Lemma py_split_aux_space c cur s :
  is_py_space c = true ->
  py_split_aux cur (String c s) =
    match cur with EmptyString => py_split_aux "" s | _ => cur :: py_split_aux "" s end.
Proof. intros H. simpl. rewrite H. reflexivity. Qed.

(** Splitting words joined by single spaces gives the words back. *)
Lemma py_split_concat ws :
  Forall is_word ws -> py_split (String.concat " " ws) = ws.
Proof.
  unfold py_split. induction ws as [|w ws IH]; intros H; [reflexivity|].
  inversion H as [|? ? [Wne Ws] Hws]; subst.
  destruct ws as [|w2 ws].
  - simpl. rewrite <- (str_app_nil_r w) at 1. rewrite py_split_aux_word by exact Ws.
    simpl. destruct w; [contradiction|reflexivity].
  - change (String.concat " " (w :: w2 :: ws)) with (w ++ " " ++ String.concat " " (w2 :: ws)).
    rewrite py_split_aux_word by exact Ws.
    change (" " ++ String.concat " " (w2 :: ws)) with (String " " (String.concat " " (w2 :: ws))).
    rewrite py_split_aux_space by reflexivity.
    destruct w as [|x w]; [contradiction|]. rewrite IH by exact Hws. reflexivity.
Qed.

Lemma py_split_aux_words cur s :
  has_space cur = false -> Forall is_word (py_split_aux cur s).
Proof.
  revert cur; induction s as [|c s IH]; intros cur Hc; simpl.
  - destruct cur; constructor; [split; [discriminate|exact Hc]|constructor].
  - destruct (is_py_space c) eqn:Sp.
    + destruct cur as [|x cur]; [apply IH; reflexivity|].
      constructor; [split; [discriminate|exact Hc]|]. apply IH. reflexivity.
    + apply IH. rewrite has_space_app, Hc. simpl. rewrite Sp. reflexivity.
Qed.

Lemma py_split_words s : Forall is_word (py_split s).
Proof. apply py_split_aux_words. reflexivity. Qed.

(** The loop never drops a line it has started. *)
Lemma line_break_loop_length limit ws res line len :
  List.length res + (match line with [] => 0 | _ => 1 end)
    <= List.length (line_break_loop limit ws res line len).
Proof.
  revert res line len; induction ws as [|w ws IH]; intros res line len; simpl.
  - destruct line; [lia|]. rewrite length_app. simpl. lia.
  - destruct (_ >? _)%Z.
    + specialize (IH (app res [String.concat " " line ++ "<br />"]) [w] (String.length w)).
      rewrite length_app in IH. simpl in IH. destruct line; lia.
    + specialize (IH res (app line [w]) (len + String.length w + 1)).
      destruct (app line [w]) eqn:E; [destruct line; discriminate|]. destruct line; lia.
Qed.

(** When the loop ends with at most one more line, it inserted no break:
    the words all went on one line. *)
Lemma line_break_loop_no_break limit ws res line len :
  List.length (line_break_loop limit ws res line len) <= List.length res + 1 ->
  line_break_loop limit ws res line len =
    app res (match app line ws with [] => [] | l => [String.concat " " l] end).
Proof.
  revert res line len; induction ws as [|w ws IH]; intros res line len H; simpl in *.
  - rewrite app_nil_r. destruct line; [rewrite app_nil_r; reflexivity|reflexivity].
  - destruct (_ >? _)%Z.
    + exfalso. pose proof (line_break_loop_length limit ws
        (app res [String.concat " " line ++ "<br />"]) [w] (String.length w)) as L.
      rewrite length_app in L. simpl in L. lia.
    + rewrite IH by exact H. rewrite <- app_assoc. reflexivity.
Qed.

(** * Claims *)

(** ** Branch filter *)

(** C1 (as stated, refuted): an element can remain in the filtered tree
    although neither it nor any of its descendants satisfies [keep]: in
    [<div><p></p></div>] filtered with [keep = name in ["div"]], the [p]
    stays because its ancestor [div] matched and is kept with its whole
    subtree. *)
Lemma C1_filter_leftover_counterexample :
  let t' := snd (filter_branches (name_in ["div"]) doc_div_p) in
  ~ (forall x, In x (descendants t') ->
       name_in ["div"] x = true \/
       exists y, In y (descendants x) /\ name_in ["div"] y = true).
Proof.
  intros t' H.
  destruct (H (Element 2 "p" [] [])) as [K | [y [Hy _]]].
  - vm_compute. auto.
  - discriminate K.
  - exact Hy.
Qed.

(** C1 (amended): after Branch Filter, every element below the root either
    satisfies [keep], has a descendant that satisfies [keep], or has an
    ancestor in the filtered tree that satisfies [keep] (a matched element
    keeps its whole subtree). *)
Theorem filter_branches_survivors keep t x :
  In x (descendants (snd (filter_branches keep t))) ->
  keep x = true \/
  (exists y, In y (descendants x) /\ keep y = true) \/
  (exists a, In a (elements (snd (filter_branches keep t))) /\
             In x (descendants a) /\ keep a = true).
Proof.
  destruct (filter_branches keep t) as [b t'] eqn:E. simpl.
  exact (proj2 (filter_branches_survivors_gen keep t b t' E) x).
Qed.

Lemma filter_branches_survivors_witness :
  In (Element 2 "p" [] []) (descendants (snd (filter_branches (name_in ["div"]) doc_div_p))) /\
  (name_in ["div"] (Element 2 "p" [] []) = true \/
   (exists y, In y (descendants (Element 2 "p" [] [])) /\ name_in ["div"] y = true) \/
   (exists a, In a (elements (snd (filter_branches (name_in ["div"]) doc_div_p))) /\
              In (Element 2 "p" [] []) (descendants a) /\ name_in ["div"] a = true)).
Proof.
  split.
  - vm_compute. auto.
  - apply filter_branches_survivors. vm_compute. auto.
Defined.

(** C4: Branch Filter is idempotent: filtering an already filtered tree with
    the same predicate gives the same tree back. *)
Theorem filter_branches_idempotent keep t :
  snd (filter_branches keep (snd (filter_branches keep t))) = snd (filter_branches keep t).
Proof.
  destruct (filter_branches keep t) as [b t'] eqn:E. simpl.
  exact (proj1 (filter_branches_rerun keep t b t' E)).
Qed.

(** C9: when [keep] holds of the node [_filter_branches] is called on, it
    reports "kept" and leaves the node, with its whole subtree, unchanged;
    [keep] is arbitrary elsewhere, so its values on descendants play no
    part. *)
Theorem filter_branches_match_keeps_subtree keep n :
  keep n = true -> filter_branches keep n = (true, n).
Proof.
  intros K. destruct n as [o nm ats cs| |]; try reflexivity.
  rewrite filter_branches_Element, K. reflexivity.
Qed.

Lemma filter_branches_match_keeps_subtree_witness :
  name_in ["div"] (Element 1 "div" [] [Element 2 "p" [] []]) = true /\
  filter_branches (name_in ["div"]) (Element 1 "div" [] [Element 2 "p" [] []]) =
    (true, Element 1 "div" [] [Element 2 "p" [] []]).
Proof.
  split; [reflexivity|].
  apply filter_branches_match_keeps_subtree. reflexivity.
Defined.

(** ** Subtree masker *)

(** C5 (as stated, refuted): the annotation of a masked element is whatever
    [maskText] returns, which can be the empty string. *)
Lemma C5_empty_annotation_counterexample :
  let t' := mask_elements (name_in ["div"]) (fun _ => "") doc_div_p in
  ~ (forall x v, In x (elements t') -> attr_get "el-mask" (node_attrs x) = Some v ->
       filter is_tag (node_children x) = [] /\ v <> "").
Proof.
  intros t' H.
  destruct (H (Element 1 "div" [("el-mask", "")] []) "") as [_ NE].
  - vm_compute. auto.
  - reflexivity.
  - apply NE. reflexivity.
Qed.

(** C5 (amended): when no element of the input already carries an
    [el-mask] attribute, every element carrying one after masking has no
    element children, and its annotation is [maskText] of a matched element
    of the input; it is non-empty whenever [maskText] never returns the
    empty string. *)
Theorem mask_elements_annotated_leaf should_mask mask_fn t x v :
  (forall y, In y (elements t) -> attr_get "el-mask" (node_attrs y) = None) ->
  In x (elements (mask_elements should_mask mask_fn t)) ->
  attr_get "el-mask" (node_attrs x) = Some v ->
  filter is_tag (node_children x) = [] /\
  (exists y, In y (elements t) /\ should_mask y = true /\ v = mask_fn y) /\
  ((forall y, mask_fn y <> "") -> v <> "").
Proof.
  intros NoMask Hx Hv.
  destruct (mask_elements_origin should_mask mask_fn t x Hx)
    as [y [Hy [[My ->] | [My [_ Ay]]]]].
  - unfold masked_leaf in Hv. simpl in Hv. rewrite attr_get_set in Hv.
    injection Hv as <-. split; [apply filter_tag_no_tag|].
    split; [exists y; auto|]. intros NE. apply NE.
  - rewrite Ay, (NoMask y Hy) in Hv. discriminate.
Qed.

Lemma mask_elements_annotated_leaf_witness :
  let t := doc_div_span in
  let x := Element 1 "div" [("el-mask", "<div><span>x</span></div>")] [] in
  (forall y, In y (elements t) -> attr_get "el-mask" (node_attrs y) = None) /\
  In x (elements (mask_elements (name_in ["div"]) default_mask_fn t)) /\
  attr_get "el-mask" (node_attrs x) = Some "<div><span>x</span></div>" /\
  (filter is_tag (node_children x) = [] /\
   (exists y, In y (elements t) /\ name_in ["div"] y = true /\
              "<div><span>x</span></div>" = default_mask_fn y) /\
   ((forall y, default_mask_fn y <> "") -> "<div><span>x</span></div>" <> "")).
Proof.
  intros t x.
  assert (H1 : forall y, In y (elements t) -> attr_get "el-mask" (node_attrs y) = None).
  { intros y Hy. vm_compute in Hy.
    destruct Hy as [<-|[<-|[<-|[]]]]; reflexivity. }
  assert (H2 : In x (elements (mask_elements (name_in ["div"]) default_mask_fn t))).
  { vm_compute. auto. }
  split; [exact H1|]. split; [exact H2|]. split; [reflexivity|].
  apply (mask_elements_annotated_leaf (name_in ["div"]) default_mask_fn t x); auto.
Defined.

(** C6: when an element [e] and a strict descendant [d] of it both match
    [shouldMask], the topmost match [a] on the path to them ([a] is [e] or
    an ancestor of [e], and no ancestor of [a] matches) is annotated and
    left with no element children, no element below [a] (in particular
    [d]) is left in the tree, and every ancestor of [a] is still there with
    its attributes untouched, so unmasked ancestors hold the masked
    descendant. *)
Theorem mask_elements_topmost_match should_mask mask_fn t e d :
  NoDup (oids t) -> In e (elements t) -> In d (descendants e) ->
  should_mask e = true -> should_mask d = true ->
  ~ In (node_oid d) (oids (mask_elements should_mask mask_fn t)) /\
  exists a, In a (elements t) /\ (a = e \/ In e (descendants a)) /\
    should_mask a = true /\
    (forall b, In b (elements t) -> In a (descendants b) -> should_mask b = false) /\
    In (masked_leaf mask_fn a) (elements (mask_elements should_mask mask_fn t)) /\
    (forall x, In x (descendants a) ->
       ~ In (node_oid x) (oids (mask_elements should_mask mask_fn t))) /\
    (forall b, In b (elements t) -> In a (descendants b) ->
       In (mask_elements should_mask mask_fn b) (elements (mask_elements should_mask mask_fn t)) /\
       node_attrs (mask_elements should_mask mask_fn b) = node_attrs b).
Proof.
  intros ND He Hd Me Md.
  destruct (mask_topmost_exists should_mask t ND e He Me)
    as [a [Ha [Hae [Ma Top]]]].
  assert (Below : forall x, In x (descendants a) ->
            ~ In (node_oid x) (oids (mask_elements should_mask mask_fn t))).
  { intros x Hx. exact (mask_removes_below should_mask mask_fn t ND a x Ha Ma Hx). }
  split.
  - apply Below. destruct Hae as [->|Hea]; [exact Hd|].
    eapply descendants_trans; [apply in_descendants_elements; exact Hea|exact Hd].
  - exists a. split; [exact Ha|]. split; [exact Hae|]. split; [exact Ma|].
    split; [exact Top|]. split.
    + rewrite <- (mask_matched should_mask mask_fn a) by
        (eauto using elements_is_tag).
      apply mask_keeps_unmasked_path; [exact Ha|exact Top].
    + split; [exact Below|].
      intros b Hb Hab. split.
      * apply mask_keeps_unmasked_path; [exact Hb|].
        intros b' Hb' Hbb'. apply Top; [exact Hb'|].
        eapply descendants_trans; [apply in_descendants_elements; exact Hbb'|exact Hab].
      * apply mask_unmatched_attrs. exact (Top b Hb Hab).
Qed.

Lemma mask_elements_topmost_match_witness :
  let t := doc_div_span in
  let e := Element 1 "div" [] [Element 2 "span" [] [Text "x"]] in
  let d := Element 2 "span" [] [Text "x"] in
  NoDup (oids t) /\ In e (elements t) /\ In d (descendants e) /\
  name_in ["div"; "span"] e = true /\ name_in ["div"; "span"] d = true /\
  (~ In (node_oid d) (oids (mask_elements (name_in ["div"; "span"]) default_mask_fn t)) /\
   exists a, In a (elements t) /\ (a = e \/ In e (descendants a)) /\
    name_in ["div"; "span"] a = true /\
    (forall b, In b (elements t) -> In a (descendants b) -> name_in ["div"; "span"] b = false) /\
    In (masked_leaf default_mask_fn a)
       (elements (mask_elements (name_in ["div"; "span"]) default_mask_fn t)) /\
    (forall x, In x (descendants a) ->
       ~ In (node_oid x) (oids (mask_elements (name_in ["div"; "span"]) default_mask_fn t))) /\
    (forall b, In b (elements t) -> In a (descendants b) ->
       In (mask_elements (name_in ["div"; "span"]) default_mask_fn b)
          (elements (mask_elements (name_in ["div"; "span"]) default_mask_fn t)) /\
       node_attrs (mask_elements (name_in ["div"; "span"]) default_mask_fn b) = node_attrs b)).
Proof.
  intros t e d.
  assert (ND : NoDup (oids t)).
  { vm_compute. repeat constructor; simpl; intuition lia. }
  assert (He : In e (elements t)) by (vm_compute; auto).
  assert (Hd : In d (descendants e)) by (vm_compute; auto).
  split; [exact ND|]. split; [exact He|]. split; [exact Hd|].
  split; [reflexivity|]. split; [reflexivity|].
  apply mask_elements_topmost_match; [exact ND|exact He|exact Hd|reflexivity|reflexivity].
Defined.

(** ** Flattener *)

(** C7: for a document tree whose elements have distinct object identities
    and non-empty tag names, [traverse(root, "")] emits one record per
    element in pre-order, the record ids are pairwise distinct, the first
    record's parent id is the empty string, and every later record's parent
    id is non-empty and equal to the id of a record emitted before it. *)
Theorem traverse_preorder_parents t :
  is_tag t = true -> NoDup (oids t) -> names_nonempty t ->
  map rec_id (plot_records t) = map node_id (elements t) /\
  NoDup (map rec_id (plot_records t)) /\
  exists r rs, plot_records t = r :: rs /\ rec_parent r = "" /\
    parents_precede [rec_id r] rs /\ Forall (fun r' => rec_parent r' <> "") rs.
Proof.
  intros T ND Hn.
  assert (Ids : map rec_id (plot_records t) = map node_id (elements t))
    by (apply traverse_ids; exact Hn).
  split; [exact Ids|]. split.
  { rewrite Ids. eapply NoDup_map_weaken; [exact node_id_oid|exact ND]. }
  destruct t as [o nm ats cs| |]; try discriminate.
  unfold plot_records. simpl.
  eexists; eexists; split; [reflexivity|]. simpl. split; [reflexivity|].
  split; [apply traverse_children_parents; left; reflexivity|].
  apply Forall_forall. intros r Hr.
  pose proof (traverse_children_parents (nm ++ "_" ++ string_of_nat o) cs
                [nm ++ "_" ++ string_of_nat o] (or_introl eq_refl)) as P.
  pose proof (parents_precede_in _ _ _ P Hr) as Hin.
  unfold plot_records in Ids. simpl in Ids. injection Ids as Ids.
  simpl in Hin. rewrite Ids in Hin. destruct Hin as [<-|Hin].
  - exact (node_id_nonempty (Element o nm ats cs)).
  - apply in_map_iff in Hin as [y [<- _]]. apply node_id_nonempty.
Qed.

Lemma traverse_preorder_parents_witness :
  is_tag doc_c8 = true /\ NoDup (oids doc_c8) /\ names_nonempty doc_c8 /\
  (map rec_id (plot_records doc_c8) = map node_id (elements doc_c8) /\
   NoDup (map rec_id (plot_records doc_c8)) /\
   exists r rs, plot_records doc_c8 = r :: rs /\ rec_parent r = "" /\
     parents_precede [rec_id r] rs /\ Forall (fun r' => rec_parent r' <> "") rs).
Proof.
  assert (ND : NoDup (oids doc_c8)).
  { vm_compute. repeat constructor; simpl; intuition lia. }
  assert (Hn : names_nonempty doc_c8).
  { intros y Hy. vm_compute in Hy.
    repeat (destruct Hy as [<-|Hy]; [discriminate|]). contradiction. }
  split; [reflexivity|]. split; [exact ND|]. split; [exact Hn|].
  apply traverse_preorder_parents; [reflexivity|exact ND|exact Hn].
Defined.

(** C10: the hover text of an element's record is its [el-mask] attribute,
    line-wrapped, whenever the attribute mapping has that key, whatever put
    it there (the masker or the input document). *)
Theorem traverse_hover_from_el_mask t pid x v :
  names_nonempty t -> In x (elements t) -> attr_get "el-mask" (node_attrs x) = Some v ->
  exists pid', In (mk_record (node_id x) (node_name x) pid' (add_line_breaks v 120))
                  (traverse t pid).
Proof.
  intros Hn Hx Hv. destruct (traverse_record t pid x Hn Hx) as [pid' H].
  exists pid'. unfold hover_source in H. rewrite Hv in H. exact H.
Qed.

(** A document whose [div] carries [el-mask="raw"] in the input HTML and is
    never masked. *)
Lemma traverse_hover_from_el_mask_witness :
  let t := Element 0 "[document]" []
             [Element 1 "div" [("el-mask", "raw")] [Element 2 "span" [] []]] in
  let x := Element 1 "div" [("el-mask", "raw")] [Element 2 "span" [] []] in
  names_nonempty t /\ In x (elements t) /\ attr_get "el-mask" (node_attrs x) = Some "raw" /\
  exists pid', In (mk_record (node_id x) (node_name x) pid' (add_line_breaks "raw" 120))
                  (traverse t "").
Proof.
  intros t x.
  assert (Hn : names_nonempty t).
  { intros y Hy. vm_compute in Hy.
    repeat (destruct Hy as [<-|Hy]; [discriminate|]). contradiction. }
  assert (Hx : In x (elements t)) by (vm_compute; auto).
  split; [exact Hn|]. split; [exact Hx|]. split; [reflexivity|].
  apply traverse_hover_from_el_mask; [exact Hn|exact Hx|reflexivity].
Defined.

(** C8 (as stated, refuted): flattening the masked document does not give
    the three records [html], [body], [div]. *)
Lemma C8_three_records_counterexample :
  map rec_label (plot_records (mask_elements (name_in ["div"]) default_mask_fn doc_c8))
  <> ["html"; "body"; "div"].
Proof. vm_compute. discriminate. Qed.

(** C8 (amended): masking the unfiltered document with [shouldMask] "tag is
    div" and the default [maskText] leaves a [div] annotated with its full
    markup and with no children; flattening gives five records, for the
    document root ["[document]"], [html], [body], [div] and [p], and the
    [div] record's hover text is the annotation wrapped at 120 characters
    (which is the annotation itself). *)
Theorem mask_and_plot_doc_c8 :
  let t' := mask_elements (name_in ["div"]) default_mask_fn doc_c8 in
  default_mask_fn (Element 3 "div" [("id", "a")] [Element 4 "span" [] [Text "x"]])
    = c8_div_markup /\
  In (Element 3 "div" [("id", "a"); ("el-mask", c8_div_markup)] []) (elements t') /\
  map rec_label (plot_records t') = ["[document]"; "html"; "body"; "div"; "p"] /\
  (exists r, nth_error (plot_records t') 3 = Some r /\ rec_label r = "div" /\
             rec_hover r = add_line_breaks c8_div_markup 120) /\
  add_line_breaks c8_div_markup 120 = c8_div_markup.
Proof.
  intros t'. split; [vm_compute; reflexivity|].
  split; [vm_compute; auto|].
  split; [vm_compute; reflexivity|].
  split; [|vm_compute; reflexivity].
  eexists. split; [vm_compute; reflexivity|]. split; vm_compute; reflexivity.
Qed.

(** ** Text wrapper *)

(** C2 (code defect): after a line break the loop resets [current_length]
    to [len(word)], without the [+ 1] for the space that the first line
    counts, so the second word of a later line is accepted when the joined
    line is [limit + 1] characters long: ["aa b cc"] at limit 3 gives the
    line ["b cc"] of 4 characters.  Also, an over-long first word flushes
    the still empty line, so ["abcd"] at limit 3 starts with a bare
    break marker. *)
Theorem add_line_breaks_overfull_line :
  add_line_breaks_lines "aa b cc" 3 = ["aa<br />"; "b cc"] /\
  String.length "b cc" = 4 /\
  add_line_breaks "aa b cc" 3 = "aa<br /> b cc" /\
  add_line_breaks "abcd" 3 = "<br /> abcd".
Proof. vm_compute. repeat split. Qed.

(** C3 (as stated, refuted): wrapping the output again is not the identity,
    since the inserted ["<br />"] markers are split and counted like the
    words. *)
Lemma C3_rewrap_counterexample :
  add_line_breaks (add_line_breaks "a b c d" 3) 3 <> add_line_breaks "a b c d" 3.
Proof. vm_compute. discriminate. Qed.

(** C3 (amended): [_add_line_breaks] is a function of its text and limit,
    and wrapping its output again gives the same string whenever the first
    wrap inserted no line break (produced at most one line). *)
Theorem add_line_breaks_one_line_idempotent text limit :
  (forall text' limit', text' = text -> limit' = limit ->
     add_line_breaks text' limit' = add_line_breaks text limit) /\
  (List.length (add_line_breaks_lines text limit) <= 1 ->
   add_line_breaks (add_line_breaks text limit) limit = add_line_breaks text limit).
Proof.
  split; [intros ? ? -> ->; reflexivity|].
  intros H. unfold add_line_breaks_lines in H.
  pose proof (line_break_loop_no_break limit (py_split text) [] [] 0 H) as E.
  assert (W : add_line_breaks text limit = String.concat " " (py_split text)).
  { unfold add_line_breaks, add_line_breaks_lines. rewrite E.
    destruct (py_split text); reflexivity. }
  rewrite W. unfold add_line_breaks at 1, add_line_breaks_lines.
  rewrite py_split_concat by apply py_split_words.
  change (String.concat " " (line_break_loop limit (py_split text) [] [] 0))
    with (add_line_breaks text limit).
  exact W.
Qed.

Lemma add_line_breaks_one_line_idempotent_witness :
  List.length (add_line_breaks_lines "a b" 3) <= 1 /\
  add_line_breaks (add_line_breaks "a b" 3) 3 = add_line_breaks "a b" 3.
Proof.
  assert (H : List.length (add_line_breaks_lines "a b" 3) <= 1) by (vm_compute; lia).
  split; [exact H|]. apply (proj2 (add_line_breaks_one_line_idempotent "a b" 3)). exact H.
Defined.

(** * Further properties of the code *)

(** ** Deleting entries from a list *)

Lemma subseq_refl {A} (l : list A) : subseq l l.
Proof. induction l; constructor; assumption. Qed.

Lemma subseq_nil_l {A} (l : list A) : subseq [] l.
Proof. induction l; constructor; assumption. Qed.

Lemma subseq_app {A} (a b c d : list A) :
  subseq a b -> subseq c d -> subseq (app a c) (app b d).
Proof.
  intros H1 H2. induction H1; simpl; [exact H2|constructor; assumption..].
Qed.

Lemma subseq_app_r {A} (c b d : list A) : subseq c d -> subseq c (app b d).
Proof. intros H. induction b; simpl; [exact H|constructor; assumption]. Qed.

Lemma subseq_incl {A} (a b : list A) : subseq a b -> incl a b.
Proof.
  intros H. induction H; intros z Hz; simpl in *.
  - exact Hz.
  - destruct Hz as [<-|Hz]; [left; reflexivity|right; auto].
  - right; auto.
Qed.

Lemma subseq_NoDup {A} (a b : list A) : subseq a b -> NoDup b -> NoDup a.
Proof.
  intros H. induction H; intros ND.
  - constructor.
  - inversion ND as [|? ? Hn ND']; subst. constructor; [|auto].
    intros Hin. apply Hn. exact (subseq_incl _ _ H a Hin).
  - inversion ND; subst. auto.
Qed.

Lemma subseq_trans {A} (a b c : list A) : subseq a b -> subseq b c -> subseq a c.
Proof.
  intros H1 H2. revert a H1. induction H2 as [|x l1 l2 H IH|x l1 l2 H IH]; intros a' H1.
  - exact H1.
  - inversion H1; subst; constructor; auto.
  - constructor. auto.
Qed.

Lemma subseq_flat_map {A B} (f g : A -> list B) l :
  (forall x, In x l -> subseq (f x) (g x)) -> subseq (flat_map f l) (flat_map g l).
Proof.
  induction l as [|x l IH]; intros H; simpl; [constructor|].
  apply subseq_app; [apply H; left; reflexivity|apply IH; intros; apply H; right; auto].
Qed.

(** ** The branch filter *)

Lemma filter_children_oids keep cs k cs' :
  Forall (fun c => forall b c', filter_branches keep c = (b, c') ->
                                subseq (oids c') (oids c)) cs ->
  filter_children keep cs = (k, cs') -> subseq (flat_map oids cs') (flat_map oids cs).
Proof.
  revert k cs'; induction cs as [|c l IH]; intros k cs' HF H; simpl in H.
  - inversion H; subst. constructor.
  - inversion HF as [|? ? Hc HF']; subst.
    destruct (filter_children keep l) as [k0 l''] eqn:El.
    specialize (IH _ _ HF' eq_refl).
    destruct (is_tag c) eqn:Tc.
    + destruct (filter_branches keep c) as [kc c'] eqn:Ec.
      inversion H; subst; clear H. destruct kc; simpl.
      * apply subseq_app; [exact (Hc true c' eq_refl)|exact IH].
      * apply subseq_app_r. exact IH.
    + inversion H; subst; clear H. simpl. apply subseq_app; [apply subseq_refl|exact IH].
Qed.

Lemma filter_branches_oids keep t b t' :
  filter_branches keep t = (b, t') -> subseq (oids t') (oids t).
Proof.
  revert b t'; induction t as [o nm ats cs IHcs| s | s] using node_ind';
    intros b t' H.
  - rewrite filter_branches_Element in H.
    destruct (keep (Element o nm ats cs)).
    { inversion H; subst. apply subseq_refl. }
    destruct (Nat.eqb (List.length cs) 0 && negb false).
    { inversion H; subst. apply subseq_refl. }
    destruct (filter_children keep cs) as [sk cs'] eqn:Ecs.
    inversion H; subst; clear H. rewrite !oids_Element. constructor.
    exact (filter_children_oids _ _ _ _ IHcs Ecs).
  - inversion H; subst. apply subseq_refl.
  - inversion H; subst. apply subseq_refl.
Qed.

Lemma filter_branches_origin keep t b t' :
  filter_branches keep t = (b, t') ->
  forall x, In x (elements t') ->
  exists y, In y (elements t) /\ node_oid x = node_oid y /\
            node_name x = node_name y /\ node_attrs x = node_attrs y.
Proof.
  revert b t'; induction t as [o nm ats cs IHcs| s | s] using node_ind';
    intros b t' H x Hx.
  - rewrite filter_branches_Element in H.
    destruct (keep (Element o nm ats cs)).
    { inversion H; subst. exists x. auto. }
    destruct (Nat.eqb (List.length cs) 0 && negb false).
    { inversion H; subst. exists x. auto. }
    destruct (filter_children keep cs) as [sk cs'] eqn:Ecs.
    inversion H; subst; clear H.
    destruct Hx as [<-|Hx].
    { exists (Element o nm ats cs). split; [left; reflexivity|auto]. }
    apply in_flat_map in Hx as [c' [Hc' Hx]].
    destruct (is_tag c') eqn:Tc'.
    2:{ rewrite elements_not_tag in Hx by exact Tc'. contradiction. }
    destruct (filter_children_origin _ _ _ _ Ecs) as [O1 _].
    destruct (O1 c' Hc' Tc') as [c [Hc [_ Ec]]].
    rewrite Forall_forall in IHcs.
    destruct (IHcs c Hc _ _ Ec x Hx) as [y [Hy E]].
    exists y. split; [|exact E]. right. apply in_flat_map. eauto.
  - inversion H; subst. contradiction.
  - inversion H; subst. contradiction.
Qed.

Lemma filter_branches_root keep t :
  node_oid (snd (filter_branches keep t)) = node_oid t /\
  node_name (snd (filter_branches keep t)) = node_name t /\
  node_attrs (snd (filter_branches keep t)) = node_attrs t.
Proof.
  destruct t as [o nm ats cs| |]; [|auto..].
  rewrite filter_branches_Element.
  destruct (keep _); [auto|]. destruct (_ && _); [auto|].
  destruct (filter_children keep cs). simpl. auto.
Qed.

Lemma filter_children_keeps keep cs c c' x :
  In c cs -> filter_branches keep c = (true, c') -> In x (elements c') ->
  fst (filter_children keep cs) = true /\ In x (flat_map elements (snd (filter_children keep cs))).
Proof.
  intros Hc Ec Hx.
  assert (Tc : is_tag c = true).
  { pose proof (filter_branches_tag _ _ _ _ Ec) as T. rewrite <- T.
    destruct c'; [reflexivity|contradiction..]. }
  induction cs as [|d l IH]; [contradiction|]. simpl.
  destruct (filter_children keep l) as [k0 l''] eqn:El.
  destruct Hc as [<-|Hc].
  - rewrite Tc, Ec. simpl. split; [reflexivity|]. apply in_or_app. left; exact Hx.
  - destruct (IH Hc) as [K H]. simpl in K, H. subst k0.
    destruct (is_tag d).
    + destruct (filter_branches keep d) as [kd d']. rewrite orb_true_r.
      split; [reflexivity|]. destruct kd; simpl; [apply in_or_app; right|]; exact H.
    + split; [reflexivity|]. simpl. apply in_or_app. right. exact H.
Qed.

(** A node that satisfies [branch_filter] where the recursion reaches it
    is never removed: the filter is checked before any child is touched,
    so every matching element of the input is reached unchanged. *)
Lemma filter_branches_keeps_gen keep t x :
  In x (elements t) -> keep x = true ->
  fst (filter_branches keep t) = true /\ In x (elements (snd (filter_branches keep t))).
Proof.
  induction t as [o nm ats cs IHcs| s | s] using node_ind'; intros Hx Kx;
    [|contradiction..].
  rewrite filter_branches_Element.
  destruct (keep (Element o nm ats cs)) eqn:K; [split; [reflexivity|exact Hx]|].
  destruct Hx as [<-|Hx]; [congruence|].
  apply in_flat_map in Hx as [c [Hc Hx]].
  assert (L : Nat.eqb (List.length cs) 0 && negb false = false).
  { destruct cs; [contradiction|reflexivity]. }
  rewrite L. rewrite Forall_forall in IHcs.
  destruct (IHcs c Hc Hx Kx) as [Kc Hxc].
  destruct (filter_branches keep c) as [kc c'] eqn:Ec. simpl in Kc, Hxc. subst kc.
  destruct (filter_children_keeps keep cs c c' x Hc Ec Hxc) as [K1 H1].
  destruct (filter_children keep cs) as [sk cs']. simpl in *.
  split; [exact K1|right; exact H1].
Qed.

Lemma filter_branches_true_match keep t b t' :
  filter_branches keep t = (b, t') -> b = true -> is_tag t = true ->
  exists x, In x (elements t) /\ keep x = true.
Proof.
  revert b t'; induction t as [o nm ats cs IHcs| s | s] using node_ind';
    intros b t' H Hb T; [|discriminate..].
  rewrite filter_branches_Element in H.
  destruct (keep (Element o nm ats cs)) eqn:K.
  { exists (Element o nm ats cs). split; [left; reflexivity|exact K]. }
  destruct (Nat.eqb (List.length cs) 0 && negb false).
  { inversion H; subst. discriminate. }
  destruct (filter_children keep cs) as [sk cs'] eqn:Ecs.
  inversion H; subst; clear H.
  destruct (filter_children_origin _ _ _ _ Ecs) as [O1 [_ Hk]].
  symmetry in Hk. apply existsb_exists in Hk as [c' [Hc' Tc']].
  destruct (O1 c' Hc' Tc') as [c [Hc [Tc Ec]]].
  rewrite Forall_forall in IHcs.
  destruct (IHcs c Hc _ _ Ec eq_refl Tc) as [x [Hx Kx]].
  exists x. split; [|exact Kx]. right. apply in_flat_map. eauto.
Qed.

Lemma filter_children_non_tags keep cs k cs' :
  filter_children keep cs = (k, cs') ->
  filter (fun c => negb (is_tag c)) cs' = filter (fun c => negb (is_tag c)) cs.
Proof.
  revert k cs'; induction cs as [|c l IH]; intros k cs' H; simpl in H.
  - inversion H; reflexivity.
  - destruct (filter_children keep l) as [k0 l''] eqn:El.
    specialize (IH _ _ eq_refl).
    destruct (is_tag c) eqn:Tc.
    + destruct (filter_branches keep c) as [kc c'] eqn:Ec.
      pose proof (filter_branches_tag _ _ _ _ Ec) as Tc'. rewrite Tc in Tc'.
      inversion H; subst; clear H. simpl. rewrite Tc.
      destruct kc; simpl; [rewrite Tc'|]; exact IH.
    + inversion H; subst; clear H. simpl. rewrite Tc. simpl. f_equal. exact IH.
Qed.

Lemma existsb_false_filter {A} (f : A -> bool) l : existsb f l = false -> filter f l = [].
Proof.
  induction l as [|a l IH]; simpl; [reflexivity|].
  destruct (f a); simpl; [discriminate|exact IH].
Qed.

(** ** The masker *)

Lemma mask_no_match sm mf t :
  (forall x, In x (elements t) -> sm x = false) -> mask_elements sm mf t = t.
Proof.
  induction t as [o nm ats cs IHcs| s | s] using node_ind'; intros H; [|reflexivity..].
  simpl. rewrite (H _ (or_introl eq_refl)). f_equal.
  etransitivity; [|apply map_id]. apply map_ext_in. intros c Hc.
  destruct (is_tag c) eqn:T; [|reflexivity].
  rewrite Forall_forall in IHcs. apply IHcs; [exact Hc|].
  intros x Hx. apply H. right. apply in_flat_map. eauto.
Qed.

Lemma mask_oids_subseq sm mf t : subseq (oids (mask_elements sm mf t)) (oids t).
Proof.
  induction t as [o nm ats cs IHcs| s | s] using node_ind'; [|apply subseq_refl..].
  destruct (sm (Element o nm ats cs)) eqn:M.
  - rewrite (mask_Element_true sm mf) by exact M. unfold oids.
    rewrite elements_masked_leaf. simpl. constructor. apply subseq_nil_l.
  - rewrite (mask_Element_false sm mf) by exact M. rewrite !oids_Element. constructor.
    rewrite flat_map_concat_map, map_map, <- flat_map_concat_map.
    apply subseq_flat_map. intros c Hc. rewrite oids_mask_child.
    rewrite Forall_forall in IHcs. exact (IHcs c Hc).
Qed.

Lemma mask_origin_names sm mf t x :
  In x (elements (mask_elements sm mf t)) ->
  exists y, In y (elements t) /\ node_oid x = node_oid y /\ node_name x = node_name y /\
    node_attrs x = (if sm y then attr_set "el-mask" (mf y) (node_attrs y) else node_attrs y).
Proof.
  induction t as [o nm ats cs IHcs| s | s] using node_ind'; intros Hx; [|contradiction..].
  destruct (sm (Element o nm ats cs)) eqn:M.
  - rewrite (mask_Element_true sm mf), elements_masked_leaf in Hx by exact M.
    destruct Hx as [<-|[]]. exists (Element o nm ats cs).
    split; [left; reflexivity|]. rewrite M. auto.
  - rewrite (mask_Element_false sm mf) in Hx by exact M.
    destruct Hx as [<-|Hx].
    + exists (Element o nm ats cs). split; [left; reflexivity|]. rewrite M. auto.
    + apply in_flat_map in Hx as [c' [Hc' Hx]].
      apply in_map_iff in Hc' as [c [<- Hc]].
      rewrite (elements_mask_child sm mf) in Hx.
      rewrite Forall_forall in IHcs.
      destruct (IHcs c Hc Hx) as [y [Hy R]]. exists y. split; [|exact R].
      right. apply in_flat_map. exists c. auto.
Qed.

Lemma mask_is_tag sm mf t : is_tag (mask_elements sm mf t) = is_tag t.
Proof. destruct t; simpl; [destruct (sm _)|..]; reflexivity. Qed.

(** ** The steps of [html_dom_visualize] *)

(** The tree handed to [_plot_dom_treemap] is a tag, keeps only elements of
    the parsed document (same identity and name), in document order. *)
Lemma visualize_tree bf sm mf soup :
  is_tag soup = true ->
  exists t2, visualize_soup bf sm mf soup = plot_records t2 /\ is_tag t2 = true /\
    subseq (oids t2) (oids soup) /\
    (forall x, In x (elements t2) ->
       exists y, In y (elements soup) /\ node_oid x = node_oid y /\ node_name x = node_name y).
Proof.
  intros T.
  set (t1 := match bf with Some f => snd (filter_branches f soup) | None => soup end).
  assert (T1 : is_tag t1 = true /\ subseq (oids t1) (oids soup) /\
    (forall x, In x (elements t1) ->
       exists y, In y (elements soup) /\ node_oid x = node_oid y /\ node_name x = node_name y)).
  { subst t1. destruct bf as [f|].
    - destruct (filter_branches f soup) as [b t'] eqn:E. simpl.
      split; [rewrite (filter_branches_tag _ _ _ _ E); exact T|].
      split; [exact (filter_branches_oids _ _ _ _ E)|].
      intros x Hx. destruct (filter_branches_origin _ _ _ _ E x Hx) as [y [Hy [E1 [E2 _]]]].
      eauto.
    - split; [exact T|]. split; [apply subseq_refl|]. intros x Hx. exists x. auto. }
  destruct T1 as [T1 [S1 O1]].
  exists (match sm with
          | Some s => mask_elements s (match mf with Some m => m | None => default_mask_fn end) t1
          | None => t1
          end).
  split; [reflexivity|].
  destruct sm as [s|].
  - set (m := match mf with Some m => m | None => default_mask_fn end).
    split; [rewrite mask_is_tag; exact T1|].
    split.
    + exact (subseq_trans _ _ _ (mask_oids_subseq s m t1) S1).
    + intros x Hx. destruct (mask_origin_names s m t1 x Hx) as [y [Hy [E1 [E2 _]]]].
      destruct (O1 y Hy) as [z [Hz [E3 E4]]]. exists z. split; [exact Hz|]. split; congruence.
  - auto.
Qed.

(** ** The text wrapper *)

Lemma str_length_app (a b : string) : String.length (a ++ b) = String.length a + String.length b.
Proof. induction a; simpl; [reflexivity|]. rewrite IHa. reflexivity. Qed.

Lemma str_concat_cons x l : l <> [] -> String.concat " " (x :: l) = x ++ " " ++ String.concat " " l.
Proof. destruct l; [contradiction|reflexivity]. Qed.

Lemma str_concat_length_app l m :
  l <> [] -> m <> [] ->
  String.length (String.concat " " (app l m)) =
  String.length (String.concat " " l) + 1 + String.length (String.concat " " m).
Proof.
  intros Hl Hm. induction l as [|x l IH]; [contradiction|].
  destruct l as [|y l'].
  - simpl app. rewrite str_concat_cons by exact Hm. rewrite !str_length_app. simpl. lia.
  - change (app (x :: y :: l') m) with (x :: app (y :: l') m).
    rewrite (str_concat_cons x (app (y :: l') m)) by discriminate.
    rewrite (str_concat_cons x (y :: l')) by discriminate.
    rewrite !str_length_app, IH by discriminate. simpl. lia.
Qed.

Lemma str_concat_length_le l m :
  String.length (String.concat " " l) <= String.length (String.concat " " (app l m)).
Proof.
  destruct l as [|x l]; [simpl; lia|]. destruct m as [|y m]; [rewrite app_nil_r; lia|].
  rewrite str_concat_length_app by discriminate. lia.
Qed.

(** The loop emits the groups of consecutive words it collected: every
    group but the last is followed by the break marker, no group is empty
    except a first one flushed before any word, and a group of two or more
    words is at most one character longer than [char_limit]. *)
Lemma line_break_loop_groups limit ws res line len :
  app line ws <> [] ->
  ((line = [] /\ len = 0) \/
   (line <> [] /\ String.length (String.concat " " line) <= len <=
                  String.length (String.concat " " line) + 1)) ->
  (2 <= List.length line -> (Z.of_nat (String.length (String.concat " " line)) <= limit + 1)%Z) ->
  exists gs last,
    line_break_loop limit ws res line len =
      app res (app (map (fun g => String.concat " " g ++ "<br />") gs) [String.concat " " last]) /\
    app (concat gs) last = app line ws /\ last <> [] /\
    (line <> [] -> Forall (fun g => g <> []) gs) /\ Forall (fun g => g <> []) (tl gs) /\
    Forall (fun g => 2 <= List.length g ->
                     (Z.of_nat (String.length (String.concat " " g)) <= limit + 1)%Z)
      (app gs [last]).
Proof.
  revert res line len; induction ws as [|w ws IH]; intros res line len Hne Inv P.
  - rewrite app_nil_r in Hne. exists [], line.
    split; [destruct line; [contradiction|reflexivity]|].
    split; [rewrite app_nil_r; reflexivity|]. split; [exact Hne|].
    split; [constructor|]. split; [constructor|]. simpl. constructor; [exact P|constructor].
  - simpl line_break_loop.
    destruct (Z.of_nat (len + String.length w) >? limit)%Z eqn:G.
    + destruct (IH (app res [String.concat " " line ++ "<br />"]) [w] (String.length w))
        as [gs [last [E [C [L [F1 [F2 F3]]]]]]].
      { discriminate. }
      { right. simpl. split; [discriminate|lia]. }
      { simpl. lia. }
      exists (line :: gs), last.
      split; [rewrite E; simpl; rewrite <- app_assoc; reflexivity|].
      split; [simpl; rewrite <- app_assoc, C; reflexivity|].
      split; [exact L|]. split; [intros Hl; constructor; [exact Hl|apply F1; discriminate]|].
      split; [simpl; apply F1; discriminate|].
      simpl. constructor; [exact P|exact F3].
    + rewrite Z.gtb_ltb in G. apply Z.ltb_ge in G.
      destruct (IH res (app line [w]) (len + String.length w + 1))
        as [gs [last [E [C [L [F1 [F2 F3]]]]]]].
      { destruct line; discriminate. }
      { right. split; [destruct line; discriminate|].
        destruct Inv as [[-> ->]|[Hl Hlen]]; [simpl; lia|].
        rewrite str_concat_length_app by (discriminate || exact Hl). simpl. lia. }
      { intros H2. destruct Inv as [[-> ->]|[Hl Hlen]]; [simpl in H2; lia|].
        rewrite str_concat_length_app by (discriminate || exact Hl). simpl. lia. }
      exists gs, last.
      split; [exact E|]. split; [rewrite C, <- app_assoc; reflexivity|].
      split; [exact L|]. split; [intros _; apply F1; destruct line; discriminate|].
      split; [exact F2|exact F3].
Qed.

Lemma line_break_loop_fits limit ws res line len :
  len = (match line with [] => 0 | _ => String.length (String.concat " " line) + 1 end) ->
  (Z.of_nat (String.length (String.concat " " (app line ws))) <= limit)%Z ->
  line_break_loop limit ws res line len =
    match app line ws with [] => res | _ => app res [String.concat " " (app line ws)] end.
Proof.
  revert line len; induction ws as [|w ws IH]; intros line len Hlen Hfit.
  - rewrite app_nil_r. destruct line; reflexivity.
  - simpl line_break_loop.
    assert (Hw : len + String.length w <= String.length (String.concat " " (app line (w :: ws)))).
    { replace (app line (w :: ws)) with (app (app line [w]) ws) by (rewrite <- app_assoc; reflexivity).
      pose proof (str_concat_length_le (app line [w]) ws).
      destruct line as [|x l]; [subst len; simpl in *; lia|].
      rewrite str_concat_length_app in H by discriminate.
      change (String.concat " " [w]) with w in H. cbv beta iota in Hlen. lia. }
    replace ((Z.of_nat (len + String.length w) >? limit)%Z) with false
      by (symmetry; rewrite Z.gtb_ltb; apply Z.ltb_ge; lia).
    rewrite IH.
    + rewrite <- app_assoc. reflexivity.
    + destruct line as [|x l]; [subst len; simpl; lia|].
      rewrite str_concat_length_app by discriminate.
      change (String.concat " " [w]) with w. cbv beta iota in Hlen.
      rewrite <- app_comm_cons. cbv beta iota. lia.
    + rewrite <- app_assoc. exact Hfit.
Qed.

(** ** Properties of the branch filter *)

(** X1: an element that satisfies [branch_filter] is never removed by
    [_filter_branches]: it is still in the filtered tree, unchanged with
    its whole subtree, and the call on the root returns [True]. *)
Theorem filter_branches_keeps_matching keep t x :
  In x (elements t) -> keep x = true ->
  fst (filter_branches keep t) = true /\ In x (elements (snd (filter_branches keep t))).
Proof. exact (filter_branches_keeps_gen keep t x). Qed.

Lemma filter_branches_keeps_matching_witness :
  In (Element 4 "span" [] [Text "x"]) (elements doc_c8) /\
  name_in ["span"] (Element 4 "span" [] [Text "x"]) = true /\
  fst (filter_branches (name_in ["span"]) doc_c8) = true /\
  In (Element 4 "span" [] [Text "x"]) (elements (snd (filter_branches (name_in ["span"]) doc_c8))).
Proof.
  assert (Hx : In (Element 4 "span" [] [Text "x"]) (elements doc_c8)) by (vm_compute; auto 10).
  split; [exact Hx|]. split; [reflexivity|].
  apply filter_branches_keeps_matching; [exact Hx|reflexivity].
Defined.

(** X2: called on a tag, [_filter_branches] returns [True] exactly when
    some element of the subtree (the node itself or a descendant)
    satisfies [branch_filter]. *)
Theorem filter_branches_result_iff_match keep t :
  is_tag t = true ->
  (fst (filter_branches keep t) = true <-> exists x, In x (elements t) /\ keep x = true).
Proof.
  intros T. split.
  - destruct (filter_branches keep t) as [b t'] eqn:E. simpl. intros Hb.
    exact (filter_branches_true_match keep t b t' E Hb T).
  - intros [x [Hx Kx]]. exact (proj1 (filter_branches_keeps_gen keep t x Hx Kx)).
Qed.

Lemma filter_branches_result_iff_match_witness :
  is_tag doc_c8 = true /\
  (fst (filter_branches (name_in ["table"]) doc_c8) = true <->
   exists x, In x (elements doc_c8) /\ name_in ["table"] x = true).
Proof.
  split; [reflexivity|]. apply filter_branches_result_iff_match. reflexivity.
Defined.

(** X3: [_filter_branches] only decomposes [Tag] children: the text and
    comment children of the node it is called on are all kept, in order,
    and when it returns [False] the node is left with no element child. *)
Theorem filter_branches_keeps_text_children keep t :
  filter (fun c => negb (is_tag c)) (node_children (snd (filter_branches keep t))) =
    filter (fun c => negb (is_tag c)) (node_children t) /\
  (fst (filter_branches keep t) = false ->
   filter is_tag (node_children (snd (filter_branches keep t))) = []).
Proof.
  destruct t as [o nm ats cs| |]; [|split; [reflexivity|discriminate]..].
  rewrite filter_branches_Element.
  destruct (keep _); [split; [reflexivity|discriminate]|].
  destruct (Nat.eqb (List.length cs) 0 && negb false) eqn:L.
  { split; [reflexivity|]. intros _. destruct cs; [reflexivity|discriminate]. }
  destruct (filter_children keep cs) as [sk cs'] eqn:Ecs. simpl.
  destruct (filter_children_origin _ _ _ _ Ecs) as [_ [_ Hk]].
  split; [exact (filter_children_non_tags _ _ _ _ Ecs)|].
  intros ->. apply existsb_false_filter. symmetry. exact Hk.
Qed.

(** X4: [_filter_branches] only deletes elements: the identities left are
    a sub-sequence of the input's (so distinct identities stay distinct),
    every element left has the identity, name and attributes of an input
    element, and the node it is called on keeps its own. *)
Theorem filter_branches_only_deletes keep t :
  subseq (oids (snd (filter_branches keep t))) (oids t) /\
  (forall x, In x (elements (snd (filter_branches keep t))) ->
     exists y, In y (elements t) /\ node_oid x = node_oid y /\
               node_name x = node_name y /\ node_attrs x = node_attrs y) /\
  node_oid (snd (filter_branches keep t)) = node_oid t /\
  node_name (snd (filter_branches keep t)) = node_name t /\
  node_attrs (snd (filter_branches keep t)) = node_attrs t.
Proof.
  destruct (filter_branches keep t) as [b t'] eqn:E.
  pose proof (filter_branches_root keep t) as R. rewrite E in R. simpl in *.
  split; [exact (filter_branches_oids _ _ _ _ E)|].
  split; [exact (filter_branches_origin _ _ _ _ E)|exact R].
Qed.

(** ** Properties of the masker *)

(** X5: when [should_mask] holds for no element of the tree,
    [_mask_elements] changes nothing. *)
Theorem mask_elements_no_match_identity sm mf t :
  (forall x, In x (elements t) -> sm x = false) -> mask_elements sm mf t = t.
Proof. exact (mask_no_match sm mf t). Qed.

Lemma mask_elements_no_match_identity_witness :
  (forall x, In x (elements doc_c8) -> name_in ["table"] x = false) /\
  mask_elements (name_in ["table"]) default_mask_fn doc_c8 = doc_c8.
Proof.
  assert (H : forall x, In x (elements doc_c8) -> name_in ["table"] x = false).
  { intros x Hx. vm_compute in Hx.
    repeat (destruct Hx as [<-|Hx]; [reflexivity|]). contradiction. }
  split; [exact H|]. apply mask_elements_no_match_identity. exact H.
Defined.

(** X6: [_mask_elements] only deletes elements and sets [el-mask]: the
    identities left are a sub-sequence of the input's, and every element
    left has the identity and name of an input element [y], with the
    attributes of [y] unchanged if [y] was not matched, or with [el-mask]
    set to [mask_fn(y)] if it was. *)
Theorem mask_elements_only_deletes sm mf t :
  subseq (oids (mask_elements sm mf t)) (oids t) /\
  (forall x, In x (elements (mask_elements sm mf t)) ->
     exists y, In y (elements t) /\ node_oid x = node_oid y /\ node_name x = node_name y /\
       node_attrs x = (if sm y then attr_set "el-mask" (mf y) (node_attrs y) else node_attrs y)).
Proof. split; [apply mask_oids_subseq|apply mask_origin_names]. Qed.



(** ** Properties of the text wrapper *)

(** X8: [_add_line_breaks] keeps every word of the text, in order, exactly
    once: either the text has no word and no line is produced, or the lines
    are groups of consecutive words joined by single spaces, each line but
    the last followed by ["<br />"], the concatenated groups are
    [text.split()], the last group is not empty, and no group after the
    first is empty. *)
Theorem add_line_breaks_keeps_words text limit :
  (py_split text = [] /\ add_line_breaks_lines text limit = []) \/
  exists gs last,
    add_line_breaks_lines text limit =
      app (map (fun g => String.concat " " g ++ "<br />") gs) [String.concat " " last] /\
    app (concat gs) last = py_split text /\ last <> [] /\
    Forall (fun g => g <> []) (tl gs).
Proof.
  unfold add_line_breaks_lines.
  destruct (py_split text) as [|w ws] eqn:E; [left; split; reflexivity|right].
  destruct (line_break_loop_groups limit (w :: ws) [] [] 0)
    as [gs [last [L [C [N [_ [F _]]]]]]].
  { discriminate. } { left; split; reflexivity. } { simpl. lia. }
  exists gs, last. split; [exact L|]. split; [exact C|]. split; [exact N|exact F].
Qed.

(** X9: when the words of the text, joined by single spaces, fit in
    [char_limit] characters, [_add_line_breaks] inserts no break and
    returns them so joined (runs of whitespace become one space). *)
Theorem add_line_breaks_fits_unchanged text limit :
  (Z.of_nat (String.length (String.concat " " (py_split text))) <= limit)%Z ->
  add_line_breaks text limit = String.concat " " (py_split text).
Proof.
  intros H. unfold add_line_breaks, add_line_breaks_lines.
  rewrite (line_break_loop_fits limit (py_split text) [] [] 0 eq_refl H). simpl.
  destruct (py_split text); reflexivity.
Qed.

Lemma add_line_breaks_fits_unchanged_witness :
  (Z.of_nat (String.length (String.concat " " (py_split "  ab   cd "))) <= 5)%Z /\
  add_line_breaks "  ab   cd " 5 = String.concat " " (py_split "  ab   cd ").
Proof.
  assert (H : (Z.of_nat (String.length (String.concat " " (py_split "  ab   cd "))) <= 5)%Z)
    by (vm_compute; discriminate).
  split; [exact H|]. apply add_line_breaks_fits_unchanged. exact H.
Defined.

(** X10: a line of [_add_line_breaks] that holds two or more words has at
    most [char_limit + 1] characters before its break marker: the
    off-by-one after a break can overfill a line by one character, never
    more. *)
Theorem add_line_breaks_line_bound text limit :
  (py_split text = [] /\ add_line_breaks_lines text limit = []) \/
  exists gs last,
    add_line_breaks_lines text limit =
      app (map (fun g => String.concat " " g ++ "<br />") gs) [String.concat " " last] /\
    app (concat gs) last = py_split text /\
    Forall (fun g => 2 <= List.length g ->
                     (Z.of_nat (String.length (String.concat " " g)) <= limit + 1)%Z)
      (app gs [last]).
Proof.
  unfold add_line_breaks_lines.
  destruct (py_split text) as [|w ws] eqn:E; [left; split; reflexivity|right].
  destruct (line_break_loop_groups limit (w :: ws) [] [] 0)
    as [gs [last [L [C [_ [_ [_ B]]]]]]].
  { discriminate. } { left; split; reflexivity. } { simpl. lia. }
  exists gs, last. split; [exact L|]. split; [exact C|exact B].
Qed.

(** ** Properties of [html_dom_visualize] and [main.py] *)

(** X11: for any [branch_filter], [should_mask] and [mask_fn], and a
    non-empty text parsed into a document whose elements have distinct
    identities and non-empty names, [html_dom_visualize] produces records
    with pairwise distinct ids, each the id of an element of the parsed
    document; the first record is the root, with parent [""], and every
    other record's parent is the id of an earlier record. *)
Theorem html_dom_visualize_chart parse html bf sm mf :
  html <> "" -> is_tag (parse html) = true -> NoDup (oids (parse html)) ->
  names_nonempty (parse html) ->
  exists rs, html_dom_visualize parse html bf sm mf = Some rs /\
    NoDup (map rec_id rs) /\
    (forall r, In r rs -> exists x, In x (elements (parse html)) /\ rec_id r = node_id x) /\
    exists r rs', rs = r :: rs' /\ rec_parent r = "" /\ parents_precede [rec_id r] rs'.
Proof.
  intros Hh T ND Hn. unfold html_dom_visualize.
  apply String.eqb_neq in Hh. rewrite Hh.
  eexists. split; [reflexivity|].
  destruct (visualize_tree bf sm mf (parse html) T) as [t2 [E [T2 [S O]]]].
  rewrite E.
  assert (Hn2 : names_nonempty t2).
  { intros x Hx. destruct (O x Hx) as [y [Hy [_ N]]]. rewrite N. exact (Hn y Hy). }
  assert (Ids : map rec_id (plot_records t2) = map node_id (elements t2))
    by (apply traverse_ids; exact Hn2).
  split.
  { rewrite Ids. eapply NoDup_map_weaken; [exact node_id_oid|].
    exact (subseq_NoDup _ _ S ND). }
  split.
  { intros r Hr. apply (in_map rec_id) in Hr. rewrite Ids in Hr.
    apply in_map_iff in Hr as [x [Ex Hx]].
    destruct (O x Hx) as [y [Hy [E1 E2]]]. exists y. split; [exact Hy|].
    rewrite <- Ex. unfold node_id. rewrite E1, E2. reflexivity. }
  destruct t2 as [o nm ats cs| |]; try discriminate.
  unfold plot_records. simpl.
  eexists; eexists; split; [reflexivity|]. split; [reflexivity|].
  apply traverse_children_parents; left; reflexivity.
Qed.

Lemma html_dom_visualize_chart_witness :
  "<html>" <> "" /\ is_tag doc_c8 = true /\ NoDup (oids doc_c8) /\ names_nonempty doc_c8 /\
  exists rs, html_dom_visualize (fun _ => doc_c8) "<html>" (Some (name_in ["body"]))
                 (Some (name_in ["div"])) None = Some rs /\
    NoDup (map rec_id rs) /\
    (forall r, In r rs -> exists x, In x (elements doc_c8) /\ rec_id r = node_id x) /\
    exists r rs', rs = r :: rs' /\ rec_parent r = "" /\ parents_precede [rec_id r] rs'.
Proof.
  assert (ND : NoDup (oids doc_c8)).
  { vm_compute. repeat constructor; simpl; intuition lia. }
  assert (Hn : names_nonempty doc_c8).
  { intros y Hy. vm_compute in Hy.
    repeat (destruct Hy as [<-|Hy]; [discriminate|]). contradiction. }
  split; [discriminate|]. split; [reflexivity|]. split; [exact ND|]. split; [exact Hn|].
  apply (html_dom_visualize_chart (fun _ => doc_c8) "<html>");
    [discriminate|reflexivity|exact ND|exact Hn].
Defined.

(** X12: run from the command line with [-b] tags and no [-m], every
    element of the document whose tag name is among the [-b] tags gets a
    record in the chart. *)
Theorem main_branch_tag_charted tags soup x :
  names_nonempty soup -> In x (elements soup) -> In (node_name x) tags ->
  In (node_id x) (map rec_id (visualize_soup (cli_predicate (Some tags)) (cli_predicate None)
                                None soup)).
Proof.
  intros Hn Hx Ht. destruct tags as [|t0 tags']; [contradiction|].
  unfold visualize_soup, cli_predicate. cbv beta iota zeta.
  assert (K : name_in (t0 :: tags') x = true).
  { unfold name_in. apply existsb_exists. exists (node_name x).
    split; [exact Ht|apply String.eqb_refl]. }
  destruct (filter_branches (name_in (t0 :: tags')) soup) as [b t'] eqn:E.
  pose proof (filter_branches_keeps_gen (name_in (t0 :: tags')) soup x Hx K) as [_ Hx'].
  rewrite E in Hx'. simpl in Hx' |- *.
  assert (Hn' : names_nonempty t').
  { intros z Hz. destruct (filter_branches_origin _ _ _ _ E z Hz) as [y [Hy [_ [N _]]]].
    rewrite N. exact (Hn y Hy). }
  unfold plot_records. rewrite traverse_ids by exact Hn'. apply in_map. exact Hx'.
Qed.

Lemma main_branch_tag_charted_witness :
  names_nonempty doc_c8 /\ In (Element 5 "p" [] [Text "y"]) (elements doc_c8) /\
  In (node_name (Element 5 "p" [] [Text "y"])) ["p"; "span"] /\
  In (node_id (Element 5 "p" [] [Text "y"]))
     (map rec_id (visualize_soup (cli_predicate (Some ["p"; "span"])) (cli_predicate None)
                    None doc_c8)).
Proof.
  assert (Hn : names_nonempty doc_c8).
  { intros y Hy. vm_compute in Hy.
    repeat (destruct Hy as [<-|Hy]; [discriminate|]). contradiction. }
  assert (Hx : In (Element 5 "p" [] [Text "y"]) (elements doc_c8)) by (vm_compute; auto 10).
  split; [exact Hn|]. split; [exact Hx|]. split; [simpl; auto|].
  apply main_branch_tag_charted; [exact Hn|exact Hx|simpl; auto].
Defined.

(** X13: run from the command line with [-m] tags and no [-b], no element
    strictly inside an element whose tag name is among the [-m] tags gets
    a record in the chart. *)
Theorem main_mask_hides_inside tags soup a x :
  NoDup (oids soup) -> names_nonempty soup ->
  In a (elements soup) -> In (node_name a) tags -> In x (descendants a) ->
  ~ In (node_id x) (map rec_id (visualize_soup (cli_predicate None) (cli_predicate (Some tags))
                                  None soup)).
Proof.
  intros ND Hn Ha Ht Hx. destruct tags as [|t0 tags']; [contradiction|].
  unfold visualize_soup, cli_predicate. cbv beta iota zeta.
  set (sm := name_in (t0 :: tags')).
  assert (M : sm a = true).
  { unfold sm, name_in. apply existsb_exists. exists (node_name a).
    split; [exact Ht|apply String.eqb_refl]. }
  assert (Hn' : names_nonempty (mask_elements sm default_mask_fn soup)).
  { intros z Hz. destruct (mask_origin_names _ _ _ _ Hz) as [y [Hy [_ [N _]]]].
    rewrite N. exact (Hn y Hy). }
  unfold plot_records. rewrite traverse_ids by exact Hn'.
  intros Hin. apply in_map_iff in Hin as [y [Ey Hy]].
  apply (mask_removes_below sm default_mask_fn soup ND a x Ha M Hx).
  rewrite <- (node_id_oid _ _ Ey). apply in_oids. exact Hy.
Qed.

Lemma main_mask_hides_inside_witness :
  NoDup (oids doc_c8) /\ names_nonempty doc_c8 /\
  In (Element 3 "div" [("id", "a")] [Element 4 "span" [] [Text "x"]]) (elements doc_c8) /\
  In (node_name (Element 3 "div" [("id", "a")] [Element 4 "span" [] [Text "x"]])) ["div"] /\
  In (Element 4 "span" [] [Text "x"])
     (descendants (Element 3 "div" [("id", "a")] [Element 4 "span" [] [Text "x"]])) /\
  ~ In (node_id (Element 4 "span" [] [Text "x"]))
       (map rec_id (visualize_soup (cli_predicate None) (cli_predicate (Some ["div"]))
                      None doc_c8)).
Proof.
  assert (ND : NoDup (oids doc_c8)).
  { vm_compute. repeat constructor; simpl; intuition lia. }
  assert (Hn : names_nonempty doc_c8).
  { intros y Hy. vm_compute in Hy.
    repeat (destruct Hy as [<-|Hy]; [discriminate|]). contradiction. }
  assert (Ha : In (Element 3 "div" [("id", "a")] [Element 4 "span" [] [Text "x"]])
                  (elements doc_c8)) by (vm_compute; auto 10).
  assert (Hx : In (Element 4 "span" [] [Text "x"])
     (descendants (Element 3 "div" [("id", "a")] [Element 4 "span" [] [Text "x"]])))
    by (simpl; auto).
  split; [exact ND|]. split; [exact Hn|]. split; [exact Ha|]. split; [simpl; auto|].
  split; [exact Hx|].
  apply (main_mask_hides_inside ["div"] doc_c8 _ _ ND Hn Ha); [simpl; auto|exact Hx].
Defined.
